(** * ip-geolocation-service: the per-client token-bucket rate limiter

    A shallow embedding of [internal/middleware/rate_limiter.go]:
    [NewRateLimiter], [calculateCurrentTokens], [Allow], [cleanup],
    [GetMapState] and [GetClientID], followed by the properties the
    specification states about them; then [getClientIP] of
    [internal/middleware/logging.go] and the two rate-limiting middlewares,
    with further properties read off the code.

    Conventions of the embedding.
    - Go's [int], [time.Duration] and the instants of [time.Time] are
      integers ([Z]); the clock is a count of nanoseconds on the process
      clock, the zero [time.Time] being instant [0].  The one addition of the
      limiter that can leave the 64-bit range is written with its wrap-around
      ([wrap_int]), [Time.Sub] saturates as in the [time] package.
    - [float64] values are rationals ([Q]), and every operation on them
      ([float64(n)], [+], [/], [*]) rounds its exact result to 53 significant
      bits, ties to even ([round64]), as binary64 does.  The exponent range
      is not modelled: the values the limiter computes are zero or lie
      between [1e-11] and [2^97] in magnitude, well inside it.  The
      conversion [int(f)] truncates toward zero; where the value does not
      fit 64 bits Go leaves the result to the implementation, and the
      embedding follows amd64, which yields the smallest [int].
    - The two maps of the limiter are finite maps keyed by the client id;
      reading a missing key yields Go's zero value.
    - [time.Now()] is an input: [Allow] receives the instant it reads, and
      the instant its eviction sweep reads when the sweep runs.
    - Go strings are byte strings ([string], one [ascii] per byte). *)

From Stdlib Require Import ZArith QArith Qround Lia Lqa Ascii String DecimalString.
From stdpp Require Import base gmap strings list fin_maps.

Open Scope Z_scope.

(** ** Machine integers *)

Definition min_int : Z := - 2 ^ 63.
Definition max_int : Z := 2 ^ 63 - 1.

(** Two's-complement wrap-around of a 64-bit [int]. *)
Definition wrap_int (x : Z) : Z := (x + 2 ^ 63) mod 2 ^ 64 - 2 ^ 63.

(** ** binary64 *)

(** The integer nearest to [a / b], for [b > 0]; halfway between two
    integers, the even one. *)
Definition rne (a b : Z) : Z :=
  let q := a / b in
  let r := a mod b in
  if 2 * r <? b then q
  else if b <? 2 * r then q + 1
  else if Z.even q then q else q + 1.

(** The exponent [k] with [2^k <= n / d < 2^(k+1)], for positive [n] and
    [d]: the difference of the two bit lengths, or one less. *)
Definition binade (n d : Z) : Z :=
  let k := Z.log2 n - Z.log2 d in
  if n * 2 ^ Z.max 0 (- k) <? d * 2 ^ Z.max 0 k then k - 1 else k.

(** [n / d], for positive [n] and [d], rounded to 53 significant bits: the
    quotient is scaled into [[2^52, 2^53)], rounded to an integer and scaled
    back. *)
Definition round_pos (n d : Z) : Q :=
  let s := 52 - binade n d in
  let m := rne (n * 2 ^ Z.max 0 s) (d * 2 ^ Z.max 0 (- s)) in
  Qred (Qmake (m * 2 ^ Z.max 0 (- s)) (Z.to_pos (2 ^ Z.max 0 s))).

(** The binary64 value nearest to [x], ties to even. *)
Definition round64 (x : Q) : Q :=
  match Qnum x with
  | Z0 => 0%Q
  | Zpos n => round_pos (Zpos n) (Zpos (Qden x))
  | Zneg n => Qopp (round_pos (Zpos n) (Zpos (Qden x)))
  end.

(** [float64(n)] for an [int] [n]. *)
Definition float64 (n : Z) : Q := round64 (inject_Z n).

(** [x + y], [x * y] and [x / y] on [float64] values; the limiter divides
    by the constants [1e9] and [60 * 1e9] only. *)
Definition fadd (x y : Q) : Q := round64 (x + y).
Definition fmul (x y : Q) : Q := round64 (x * y).
Definition fdiv (x y : Q) : Q := round64 (x / y).

(** [int(f)] for a [float64] [f]: the fractional part is discarded.  Go
    leaves the result to the implementation when it does not fit 64 bits;
    amd64 yields the smallest [int]. *)
Definition int_of_float64 (f : Q) : Z :=
  let n := Qnum f ÷ Zpos (Qden f) in
  if (min_int <=? n) && (n <=? max_int) then n else min_int.

(** ** Package [time] *)

Module time.

Abbreviation Duration := Z (only parsing).
Abbreviation Time := Z (only parsing).

Definition Nanosecond : Duration := 1.
Definition Millisecond : Duration := 1000000.
Definition Second : Duration := 1000000000.
Definition Minute : Duration := 60 * Second.

Definition minDuration : Duration := min_int.
Definition maxDuration : Duration := max_int.

(** [t.Sub(u)]: the difference, saturated at the ends of [Duration]. *)
Definition Sub (t u : Time) : Duration :=
  Z.max minDuration (Z.min maxDuration (t - u)).

(** [t.Add(d)]. *)
Definition Add (t : Time) (d : Duration) : Time := t + d.

(** [t.Before(u)]. *)
Definition Before (t u : Time) : bool := t <? u.

(** [d.Seconds()]: [float64(d / Second) + float64(d % Second) / 1e9]. *)
Definition Seconds (d : Duration) : Q :=
  fadd (float64 (d ÷ Second))
       (fdiv (float64 (Z.rem d Second)) (float64 1000000000)).

(** [d.Minutes()]: [float64(d / Minute) + float64(d % Minute) / (60 * 1e9)]. *)
Definition Minutes (d : Duration) : Q :=
  fadd (float64 (d ÷ Minute))
       (fdiv (float64 (Z.rem d Minute)) (float64 (60 * 1000000000))).

(** [d.Milliseconds()]. *)
Definition Milliseconds (d : Duration) : Z := d ÷ Millisecond.

End time.

(** ** The limiter *)

Record RateLimiter : Type := mkRateLimiter {
  requestsPerSecond : Z;
  burstSize : Z;
  tokens : gmap string Z;
  lastUpdate : gmap string Z;
  cleanupInterval : Z;
  inactiveThreshold : Z;
  lastCleanup : Z
}.

(** Assignments to the mutable fields. *)
Definition set_tokens (rl : RateLimiter) (clientID : string) (n : Z) : RateLimiter :=
  mkRateLimiter (requestsPerSecond rl) (burstSize rl)
    (<[clientID := n]> (tokens rl)) (lastUpdate rl)
    (cleanupInterval rl) (inactiveThreshold rl) (lastCleanup rl).

Definition set_lastUpdate (rl : RateLimiter) (clientID : string) (t : Z) : RateLimiter :=
  mkRateLimiter (requestsPerSecond rl) (burstSize rl)
    (tokens rl) (<[clientID := t]> (lastUpdate rl))
    (cleanupInterval rl) (inactiveThreshold rl) (lastCleanup rl).

Definition set_lastCleanup (rl : RateLimiter) (t : Z) : RateLimiter :=
  mkRateLimiter (requestsPerSecond rl) (burstSize rl)
    (tokens rl) (lastUpdate rl)
    (cleanupInterval rl) (inactiveThreshold rl) t.

Definition set_maps (rl : RateLimiter) (tk lu : gmap string Z) : RateLimiter :=
  mkRateLimiter (requestsPerSecond rl) (burstSize rl) tk lu
    (cleanupInterval rl) (inactiveThreshold rl) (lastCleanup rl).

(** Reading a map at a key: the zero value when the key is missing. *)
Definition tokens_at (rl : RateLimiter) (clientID : string) : Z :=
  default 0 (tokens rl !! clientID).

Definition lastUpdate_at (rl : RateLimiter) (clientID : string) : Z :=
  default 0 (lastUpdate rl !! clientID).

(** [NewRateLimiter]: zero durations are replaced by the defaults; the
    window size is not stored. *)
Definition NewRateLimiter (requestsPerSecond burstSize : Z)
    (windowSize cleanupInterval inactiveThreshold : Z) : RateLimiter :=
  let cleanupInterval :=
    if cleanupInterval =? 0 then 1 * time.Minute else cleanupInterval in
  let inactiveThreshold :=
    if inactiveThreshold =? 0 then 5 * time.Minute else inactiveThreshold in
  mkRateLimiter requestsPerSecond burstSize ∅ ∅
    cleanupInterval inactiveThreshold 0.

(** [tokensToAdd] of [calculateCurrentTokens]:
    [int(timeElapsed.Seconds() * float64(rl.requestsPerSecond))]. *)
Definition tokensToAdd (rl : RateLimiter) (timeElapsed : Z) : Z :=
  let timeElapsedSeconds := time.Seconds timeElapsed in
  int_of_float64 (fmul timeElapsedSeconds (float64 (requestsPerSecond rl))).

(** The two clamps that end [calculateCurrentTokens]. *)
Definition clamp_tokens (rl : RateLimiter) (currentTokens : Z) : Z :=
  let currentTokens :=
    if burstSize rl <? currentTokens then burstSize rl else currentTokens in
  if currentTokens <? 0 then 0 else currentTokens.

Definition calculateCurrentTokens (rl : RateLimiter) (clientID : string)
    (now : Z) : Z :=
  match lastUpdate rl !! clientID with
  | None => 0
  | Some lastUpdate =>
      let timeElapsed := time.Sub now lastUpdate in
      let currentTokens :=
        wrap_int (tokens_at rl clientID + tokensToAdd rl timeElapsed) in
      clamp_tokens rl currentTokens
  end.

(** The body of the loop of [cleanup]: [acc] holds the two maps. *)
Definition sweep_step (cutoff : Z) (clientID : string) (lastUpdate : Z)
    (acc : gmap string Z * gmap string Z) : gmap string Z * gmap string Z :=
  if time.Before lastUpdate cutoff
  then (delete clientID acc.1, delete clientID acc.2)
  else acc.

(** [cleanup]: the sweep ranges over [lastUpdate] and deletes from both maps
    every client last updated before the cutoff.  [now] is the instant the
    sweep itself reads. *)
Definition cleanup (rl : RateLimiter) (now : Z) : RateLimiter :=
  let cutoff := time.Add now (wrap_int (- inactiveThreshold rl)) in
  let '(tk, lu) :=
    map_fold (sweep_step cutoff) (tokens rl, lastUpdate rl) (lastUpdate rl) in
  set_maps rl tk lu.

(** [Allow], in the three stages of its body. *)

(** Periodic cleanup. *)
Definition Allow_cleanup (now cleanupNow : Z) (rl : RateLimiter) : RateLimiter :=
  if cleanupInterval rl <? time.Sub now (lastCleanup rl)
  then set_lastCleanup (cleanup rl cleanupNow) now
  else rl.

(** Initialise or reset the client; [None] is the early [return false]. *)
Definition Allow_init (clientID : string) (now : Z) (rl : RateLimiter)
    : option RateLimiter :=
  match tokens rl !! clientID with
  | None =>
      if requestsPerSecond rl =? 0 then None
      else Some (set_lastUpdate (set_tokens rl clientID (burstSize rl)) clientID now)
  | Some _ =>
      if inactiveThreshold rl <? time.Sub now (lastUpdate_at rl clientID)
      then Some (set_lastUpdate (set_tokens rl clientID (burstSize rl)) clientID now)
      else Some rl
  end.

(** Calculate current tokens and update. *)
Definition Allow_refill (clientID : string) (now : Z) (rl : RateLimiter)
    : RateLimiter :=
  set_lastUpdate
    (set_tokens rl clientID (calculateCurrentTokens rl clientID now))
    clientID now.

Definition Allow (clientID : string) (now cleanupNow : Z) (rl : RateLimiter)
    : bool * RateLimiter :=
  let rl := Allow_cleanup now cleanupNow rl in
  match Allow_init clientID now rl with
  | None => (false, rl)
  | Some rl =>
      let rl := Allow_refill clientID now rl in
      if 0 <? tokens_at rl clientID
      then (true, set_tokens rl clientID (tokens_at rl clientID - 1))
      else (false, rl)
  end.

(** A run of [Allow] calls, each with its client and its two clock
    readings; the outcomes are listed in call order. *)
Fixpoint Allow_calls (calls : list (string * Z * Z)) (rl : RateLimiter)
    : list bool * RateLimiter :=
  match calls with
  | [] => ([], rl)
  | (clientID, now, cleanupNow) :: rest =>
      let '(ok, rl) := Allow clientID now cleanupNow rl in
      let '(oks, rl) := Allow_calls rest rl in
      (ok :: oks, rl)
  end.

(** ** [GetMapState]: the debugging view *)

(** One entry of the ["clients"] map.  [last_update] keeps the instant; its
    rendering as a clock string is not modelled. *)
Record ClientState : Type := mkClientState {
  client_tokens : Z;
  client_last_update : Z;
  client_time_since_last_update_ms : Z;
  client_is_active : bool
}.

Record MapState : Type := mkMapState {
  total_clients : Z;
  current_time : Z;
  clients : gmap string ClientState;
  config_requests_per_second : Z;
  config_burst_size : Z;
  config_inactive_threshold_minutes : Q
}.

(** The loop over [rl.tokens] fills a fresh map with one entry per client
    that also has a [lastUpdate]; the others are skipped. *)
Definition GetMapState (rl : RateLimiter) (now : Z) : MapState :=
  let clients :=
    map_imap
      (λ clientID (_ : Z),
         match lastUpdate rl !! clientID with
         | None => None
         | Some lastUpdate =>
             let timeSinceLastUpdate := time.Sub now lastUpdate in
             let currentTokens := calculateCurrentTokens rl clientID now in
             Some (mkClientState currentTokens lastUpdate
                     (time.Milliseconds timeSinceLastUpdate)
                     (timeSinceLastUpdate <? inactiveThreshold rl))
         end)
      (tokens rl) in
  mkMapState (Z.of_nat (size (tokens rl))) now clients
    (requestsPerSecond rl) (burstSize rl)
    (time.Minutes (inactiveThreshold rl)).

(** ** Package [strings] *)

Module strings.

(** Offset of the first occurrence of [substr] in [s]. *)
Fixpoint index_nat (s substr : string) : option nat :=
  if String.prefix substr s then Some 0%nat
  else match s with
       | EmptyString => None
       | String _ s' => S <$> index_nat s' substr
       end.

(** Offset of the last occurrence of [substr] in [s]. *)
Fixpoint last_index_nat (s substr : string) : option nat :=
  match s with
  | EmptyString => if String.prefix substr s then Some 0%nat else None
  | String _ s' =>
      match last_index_nat s' substr with
      | Some i => Some (S i)
      | None => if String.prefix substr s then Some 0%nat else None
      end
  end.

(** [strings.Index(s, substr)]: [-1] when [substr] does not occur. *)
Definition Index (s substr : string) : Z :=
  match index_nat s substr with Some i => Z.of_nat i | None => -1 end.

(** [strings.LastIndex(s, substr)]. *)
Definition LastIndex (s substr : string) : Z :=
  match last_index_nat s substr with Some i => Z.of_nat i | None => -1 end.

(** The slice [s[:i]]. *)
Definition slice_to (s : string) (i : Z) : string :=
  String.substring 0 (Z.to_nat i) s.

(** White space as [strings.TrimSpace] sees it.  One-byte runes: tab, line
    feed, vertical tab, form feed, carriage return, space. *)
Definition asciiSpace (c : ascii) : bool :=
  let n := N_of_ascii c in
  ((9 <=? n) && (n <=? 13) || (n =? 32))%N.

(** Two-byte runes: U+0085 and U+00A0. *)
Definition space2 (c1 c2 : ascii) : bool :=
  let '(a, b) := (N_of_ascii c1, N_of_ascii c2) in
  ((a =? 194) && ((b =? 133) || (b =? 160)))%N.

(** Three-byte runes: U+1680, U+2000..U+200A, U+2028, U+2029, U+202F,
    U+205F and U+3000. *)
Definition space3 (c1 c2 c3 : ascii) : bool :=
  let '(a, b, c) := (N_of_ascii c1, N_of_ascii c2, N_of_ascii c3) in
  ((a =? 225) && (b =? 154) && (c =? 128)
   || (a =? 226) && (b =? 128)
      && ((128 <=? c) && (c <=? 138) || (c =? 168) || (c =? 169) || (c =? 175))
   || (a =? 226) && (b =? 129) && (c =? 159)
   || (a =? 227) && (b =? 128) && (c =? 128))%N.

(** Drop the white-space runes at the head of [s]. *)
Fixpoint trim_left (s : string) : string :=
  match s with
  | EmptyString => s
  | String c1 s1 =>
      if asciiSpace c1 then trim_left s1
      else match s1 with
           | EmptyString => s
           | String c2 s2 =>
               if space2 c1 c2 then trim_left s2
               else match s2 with
                    | EmptyString => s
                    | String c3 s3 =>
                        if space3 c1 c2 c3 then trim_left s3 else s
                    end
           end
  end.

(** The same from the end, on the reversed bytes. *)
Fixpoint trim_left_rev (s : string) : string :=
  match s with
  | EmptyString => s
  | String c1 s1 =>
      if asciiSpace c1 then trim_left_rev s1
      else match s1 with
           | EmptyString => s
           | String c2 s2 =>
               if space2 c2 c1 then trim_left_rev s2
               else match s2 with
                    | EmptyString => s
                    | String c3 s3 =>
                        if space3 c3 c2 c1 then trim_left_rev s3 else s
                    end
           end
  end.

Definition trim_right (s : string) : string :=
  String.rev (trim_left_rev (String.rev s)).

(** [strings.TrimSpace(s)]. *)
Definition TrimSpace (s : string) : string := trim_right (trim_left s).

End strings.

(** ** [GetClientID] *)

(** The part of [http.Request] the resolver reads.  [Header] maps a header
    name to its values. *)
Record Request : Type := mkRequest {
  Header : gmap string (list string);
  RemoteAddr : string
}.

(** [r.Header.Get(key)]: the first value, or the empty string.  The map is
    keyed by the header names as the code writes them; the canonical
    spelling [net/http] gives to names is not modelled. *)
Definition Header_Get (h : gmap string (list string)) (key : string) : string :=
  match h !! key with
  | Some (v :: _) => v
  | _ => EmptyString
  end.

(** [GetClientID]; its receiver is not read. *)
Definition GetClientID (r : Request) : string :=
  let realIP := Header_Get (Header r) "X-Real-IP" in
  if negb (String.eqb realIP "") then realIP
  else
    let forwardedFor := Header_Get (Header r) "X-Forwarded-For" in
    if negb (String.eqb forwardedFor "") then
      let commaIdx := strings.Index forwardedFor "," in
      if 0 <? commaIdx
      then strings.TrimSpace (strings.slice_to forwardedFor commaIdx)
      else strings.TrimSpace forwardedFor
    else
      let clientID := RemoteAddr r in
      let clientID := if String.eqb clientID "" then "unknown"%string else clientID in
      let colonIdx := strings.LastIndex clientID ":" in
      if 0 <? colonIdx then strings.slice_to clientID colonIdx else clientID.

(** ** [getClientIP] of the logging middleware *)

(** The loop [for i, c := range forwardedFor] looking for [','].  The loop
    visits runes; a [','] byte is always a rune of its own (bytes of a
    multi-byte rune are 128 or more, and a stray byte decodes alone), so the
    loop stops at the first [','] byte and [i] is its offset. *)
Fixpoint first_comma (s : string) (i : nat) : option nat :=
  match s with
  | EmptyString => None
  | String c s' => if Ascii.eqb c "," then Some i else first_comma s' (S i)
  end.

Section logging.

(** [net.SplitHostPort]: host and port of an address, or an error. *)
Variable SplitHostPort : string → option (string * string).

Definition getClientIP (r : Request) : string :=
  let realIP := Header_Get (Header r) "X-Real-IP" in
  if negb (String.eqb realIP "") then realIP
  else
    let forwardedFor := Header_Get (Header r) "X-Forwarded-For" in
    if negb (String.eqb forwardedFor "") then
      match first_comma forwardedFor 0 with
      | Some i => String.substring 0 i forwardedFor
      | None => forwardedFor
      end
    else
      match SplitHostPort (RemoteAddr r) with
      | Some (host, _) => host
      | None => RemoteAddr r
      end.

End logging.

(** ** The rate-limiting middlewares *)

(** [fmt.Sprintf("%d", n)]. *)
Definition Sprintf_d (n : Z) : string := NilZero.string_of_int (Z.to_int n).

(** What a handler has done to its [http.ResponseWriter]: the header map,
    the status code once written, the bytes of the body. *)
Record ResponseWriter : Type := mkResponseWriter {
  rw_header : gmap string (list string);
  rw_code : option Z;
  rw_body : string
}.

(** A writer nothing has been written to. *)
Definition new_writer : ResponseWriter := mkResponseWriter ∅ None EmptyString.

(** [w.Header().Set(key, value)]. *)
Definition Header_Set (w : ResponseWriter) (key value : string) : ResponseWriter :=
  mkResponseWriter (<[key := [value]]> (rw_header w)) (rw_code w) (rw_body w).

(** [w.WriteHeader(code)]: the first status code stands. *)
Definition WriteHeader (w : ResponseWriter) (code : Z) : ResponseWriter :=
  match rw_code w with
  | Some _ => w
  | None => mkResponseWriter (rw_header w) (Some code) (rw_body w)
  end.

Definition StatusOK : Z := 200.
Definition StatusTooManyRequests : Z := 429.

(** [w.Write(data)]: writes the status 200 first if none was written. *)
Definition Write (w : ResponseWriter) (data : string) : ResponseWriter :=
  let w := WriteHeader w StatusOK in
  mkResponseWriter (rw_header w) (rw_code w) (rw_body w +:+ data).

(** The request as the middlewares see it: the resolver's part, the path of
    the URL, and the value stored in the context under [ClientIDKey]. *)
Record HttpRequest : Type := mkHttpRequest {
  request : Request;
  URL_Path : string;
  context_client_id : option string
}.

(** [r.WithContext(context.WithValue(r.Context(), ClientIDKey, clientID))]. *)
Definition WithClientID (r : HttpRequest) (clientID : string) : HttpRequest :=
  mkHttpRequest (request r) (URL_Path r) (Some clientID).

(** The two limiters of the program: the one [RateLimitMiddleware] is given
    and the one [DebugRateLimitMiddleware] creates for itself. *)
Record Limiters : Type := mkLimiters {
  rateLimiter : RateLimiter;
  debugRateLimiter : RateLimiter
}.

(** An [http.Handler]: it writes its response and may change the
    limiters. *)
Definition Handler : Type :=
  ResponseWriter → HttpRequest → Limiters → ResponseWriter * Limiters.

(** The double quote. *)
Definition dquote : string := String (ascii_of_nat 34) EmptyString.

(** The body [{"error": "<message>"}] of a rejection. *)
Definition error_body (message : string) : string :=
  "{" +:+ dquote +:+ "error" +:+ dquote +:+ ": " +:+ dquote +:+ message +:+ dquote +:+ "}".

(** [RateLimitMiddleware(rateLimiter)(next)], serving one request; [now]
    and [cleanupNow] are the clock readings of its [Allow] call. *)
Definition RateLimitMiddleware (next : Handler) (now cleanupNow : Z) : Handler :=
  λ w r st,
    let clientID := GetClientID (request r) in
    let r := WithClientID r clientID in
    let '(ok, rl) := Allow clientID now cleanupNow (rateLimiter st) in
    let st := mkLimiters rl (debugRateLimiter st) in
    if negb ok then
      let w := Header_Set w "Content-Type" "application/json" in
      let w := Header_Set w "X-RateLimit-Limit" (Sprintf_d (requestsPerSecond rl)) in
      let w := Header_Set w "X-RateLimit-Remaining" "0" in
      let w := WriteHeader w StatusTooManyRequests in
      let w := Write w (error_body "Rate limit exceeded. Try again later.") in
      (w, st)
    else
      let w := Header_Set w "X-RateLimit-Limit" (Sprintf_d (requestsPerSecond rl)) in
      next w r st.

(** The limiter [DebugRateLimitMiddleware] creates once, when the chain is
    built. *)
Definition new_debugRateLimiter : RateLimiter :=
  NewRateLimiter 100 200 (1 * time.Second) (1 * time.Minute) (5 * time.Minute).

(** [DebugRateLimitMiddleware(rateLimiter)(next)], serving one request; the
    limiter it is given only resolves the client id. *)
Definition DebugRateLimitMiddleware (next : Handler) (now cleanupNow : Z) : Handler :=
  λ w r st,
    if negb (String.prefix "/debug/" (URL_Path r)) then next w r st
    else
      let clientID := GetClientID (request r) in
      let r := WithClientID r clientID in
      let '(ok, rl) := Allow clientID now cleanupNow (debugRateLimiter st) in
      let st := mkLimiters (rateLimiter st) rl in
      if negb ok then
        let w := Header_Set w "Content-Type" "application/json" in
        let w := Header_Set w "X-RateLimit-Limit" "100" in
        let w := Header_Set w "X-RateLimit-Remaining" "0" in
        let w := WriteHeader w StatusTooManyRequests in
        let w := Write w (error_body "Debug endpoint rate limit exceeded. Try again later.") in
        (w, st)
      else
        let w := Header_Set w "X-RateLimit-Limit" "100" in
        next w r st.

(** The two limiting layers as [SetupRoutesWithMiddleware] stacks them: the
    regular limiter outside, the debug limiter inside, then the rest of the
    chain. *)
Definition limited (inner : Handler) (now cleanupNow debugNow debugCleanupNow : Z)
    : Handler :=
  RateLimitMiddleware (DebugRateLimitMiddleware inner debugNow debugCleanupNow)
    now cleanupNow.

(** ** The specification's wording, for comparison with the code *)

(** The capped lazy refill of the specification:
    [clamp(tokens + floor(elapsedSeconds * refillRatePerSecond), 0, burstCapacity)],
    the elapsed time being given in nanoseconds. *)
Definition spec_capped_refill (tokens elapsed refillRatePerSecond burstCapacity : Z) : Z :=
  Z.max 0 (Z.min burstCapacity (tokens + (elapsed * refillRatePerSecond) / time.Second)).

(** The resolver of the specification, step 3: strip the [:port] suffix at
    the rightmost colon, if there is one; an empty address stays empty. *)
Definition spec_strip_port (addr : string) : string :=
  match strings.last_index_nat addr ":" with
  | Some i => String.substring 0 i addr
  | None => addr
  end.

(** Step 2: split on comma, trim white space, take the first element. *)
Definition spec_first_entry (forwardedFor : string) : string :=
  match strings.index_nat forwardedFor "," with
  | Some i => strings.TrimSpace (String.substring 0 i forwardedFor)
  | None => strings.TrimSpace forwardedFor
  end.

(** Steps 1 to 3, first match wins. *)
Definition spec_resolve (r : Request) : string :=
  let realIP := Header_Get (Header r) "X-Real-IP" in
  let forwardedFor := Header_Get (Header r) "X-Forwarded-For" in
  if negb (String.eqb realIP "") then realIP
  else if negb (String.eqb forwardedFor "") then spec_first_entry forwardedFor
  else spec_strip_port (RemoteAddr r).

(** ** Notions used in the statements *)

(** The unit roundoff of binary64. *)
Definition u64 : Q := 1 # 2 ^ 53.

(** [2^k <= n / d], the power written on the side where it is an integer. *)
Definition above_pow2 (n d k : Z) : Prop :=
  d * 2 ^ Z.max 0 k ≤ n * 2 ^ Z.max 0 (- k).

(** [y] approximates [x >= 0] from below by the factor [lo] and from above
    by the factor [hi]. *)
Definition within (lo hi x y : Q) : Prop :=
  (0 <= x ∧ x * lo <= y ∧ y <= x * hi)%Q.

(** The roundings of a grant keep it within the factors [1 - 2^-50] and
    [1 + 2^-50] of the exact product. *)
Definition slack : Z := 2 ^ 50.
Definition slack_lo : Q := (slack - 1) # 2 ^ 50.
Definition slack_hi : Q := (slack + 1) # 2 ^ 50.

(** The grant as a function of the rate and the elapsed time. *)
Definition grant (rate elapsed : Z) : Z :=
  int_of_float64 (fmul (time.Seconds elapsed) (float64 rate)).

(** The most the refill grants for an elapsed time, rounding included:
    [floor(elapsedSeconds * rate * (1 + 2^-50))]. *)
Definition refill_bound (rate elapsed : Z) : Z :=
  (elapsed * rate * (slack + 1)) / (time.Second * slack).

(** The least it grants: [floor(elapsedSeconds * rate * (1 - 2^-50))]. *)
Definition refill_floor (rate elapsed : Z) : Z :=
  (elapsed * rate * (slack - 1)) / (time.Second * slack).

(** The integers [k, k+1, ..., k+n-1]. *)
Fixpoint upto (n : nat) (k : Z) : list Z :=
  match n with
  | O => []
  | S n => k :: upto n (k + 1)
  end.

(** Both ways of waiting exactly one token's worth with the factor [k]:
    rate [k], and elapsed time [k] nanoseconds. *)
Definition whole_token_at (k : Z) : bool :=
  if time.Second mod k =? 0
  then (grant k (time.Second / k) =? 1) && (grant (time.Second / k) k =? 1)
  else true.

(** A client is stale for a sweep reading [now] when it has a [lastUpdate]
    before the sweep's cutoff. *)
Definition stale (rl : RateLimiter) (now : Z) (clientID : string) : bool :=
  match lastUpdate rl !! clientID with
  | Some t => time.Before t (time.Add now (wrap_int (- inactiveThreshold rl)))
  | None => false
  end.

(** The configuration is never written after construction. *)
Definition same_config (rl1 rl2 : RateLimiter) : Prop :=
  requestsPerSecond rl1 = requestsPerSecond rl2
  ∧ burstSize rl1 = burstSize rl2
  ∧ cleanupInterval rl1 = cleanupInterval rl2
  ∧ inactiveThreshold rl1 = inactiveThreshold rl2.

(** The sweep of an [Allow] call reading [now] and [cleanupNow] removes the
    client [k]. *)
Definition swept (rl : RateLimiter) (now cleanupNow : Z) (k : string) : bool :=
  (cleanupInterval rl <? time.Sub now (lastCleanup rl)) && stale rl cleanupNow k.

(** Every stored bucket holds between 0 and [burstSize] tokens. *)
Definition tokens_in_range (rl : RateLimiter) : Prop :=
  ∀ clientID n, tokens rl !! clientID = Some n → 0 ≤ n ≤ burstSize rl.

(** [Allow] once the periodic cleanup is done. *)
Definition Allow_serve (clientID : string) (now : Z) (rl : RateLimiter)
    : bool * RateLimiter :=
  match Allow_init clientID now rl with
  | None => (false, rl)
  | Some rl =>
      let rl := Allow_refill clientID now rl in
      if 0 <? tokens_at rl clientID
      then (true, set_tokens rl clientID (tokens_at rl clientID - 1))
      else (false, rl)
  end.

(** Two stores agree on the bucket of [k]. *)
Definition agree_on (k : string) (rl1 rl2 : RateLimiter) : Prop :=
  same_config rl1 rl2
  ∧ tokens rl1 !! k = tokens rl2 !! k
  ∧ lastUpdate rl1 !! k = lastUpdate rl2 !! k.

(** Polls of one client, each given by the instant [Allow] reads and the
    instant its sweep would read: every poll comes less than [1/rate]
    seconds after the previous one, and within the inactivity threshold of
    it. *)
Fixpoint starved (rate threshold last : Z) (polls : list (Z * Z)) : Prop :=
  match polls with
  | [] => True
  | (now, cleanupNow) :: rest =>
      0 ≤ now - last
      ∧ (now - last) * rate < time.Second
      ∧ now - last ≤ threshold
      ∧ cleanupNow - last ≤ threshold
      ∧ starved rate threshold now rest
  end.

(** What a sweep with the given cutoff leaves of the entry of [k] in a map
    [M], when it has ranged over the [lastUpdate] entries [m]. *)
Definition sweep_kept (cutoff : Z) (m M : gmap string Z) (k : string) : option Z :=
  match m !! k with
  | Some t => if time.Before t cutoff then None else M !! k
  | None => M !! k
  end.

(** The instant used in the examples: a moment of the year 2026, counted
    from the zero [time.Time]. *)
Definition startup : Z := 63900000000 * time.Second.

(** A client has a token count exactly when it has a last-update instant. *)
Definition same_keys (rl : RateLimiter) : Prop :=
  ∀ k, is_Some (tokens rl !! k) ↔ is_Some (lastUpdate rl !! k).

(** The number of calls for [k] that a run admits. *)
Fixpoint admissions (k : string) (calls : list (string * Z * Z)) (rl : RateLimiter) : Z :=
  match calls with
  | [] => 0
  | (clientID, now, cleanupNow) :: rest =>
      let res := Allow clientID now cleanupNow rl in
      (if bool_decide (clientID = k) && res.1 then 1 else 0)
      + admissions k rest res.2
  end.

(** Calls listed with their client and instant, in the order of a clock
    that runs from [t] to [T]. *)
Fixpoint chronological (t T : Z) (calls : list (string * Z)) : Prop :=
  match calls with
  | [] => t ≤ T
  | (_, now) :: rest => t ≤ now ∧ chronological now T rest
  end.

(** Each call reads the clock once: its sweep sees the instant of the
    call. *)
Definition at_instants (calls : list (string * Z)) : list (string * Z * Z) :=
  map (λ c, (c.1, c.2, c.2)) calls.

(** What the client [k] has been granted since [t0], as the store at clock
    [t] accounts for it: [a] admissions so far plus the tokens in the
    bucket stay within the burst plus the most the refill grants up to the
    bucket's last update; an evicted bucket was last updated more than the
    threshold ago. *)
Definition within_budget (rl : RateLimiter) (k : string) (t0 t a : Z) : Prop :=
  t0 ≤ t
  ∧ match tokens rl !! k with
    | Some tk =>
        ∃ lu, lastUpdate rl !! k = Some lu
              ∧ 0 ≤ tk ∧ t0 ≤ lu ≤ t
              ∧ a + tk ≤ burstSize rl
                         + refill_bound (requestsPerSecond rl) (lu - t0)
    | None =>
        a = 0
        ∨ ∃ g, t0 ≤ g ∧ g + inactiveThreshold rl < t
               ∧ a ≤ burstSize rl
                      + refill_bound (requestsPerSecond rl) (g - t0)
    end.

(** A downstream handler that leaves the limiters alone. *)
Definition pure_handler (f : ResponseWriter → HttpRequest → ResponseWriter) : Handler :=
  λ w r st, (f w r, st).

(** Serving requests one after the other, each on a writer of its own. *)
Fixpoint serve (h : Handler) (reqs : list HttpRequest) (st : Limiters)
    : list ResponseWriter * Limiters :=
  match reqs with
  | [] => ([], st)
  | r :: rest =>
      let '(w, st) := h new_writer r st in
      let '(ws, st) := serve h rest st in
      (w :: ws, st)
  end.

(** The response of [RateLimitMiddleware] to a rejected request. *)
Definition rate_limit_rejection (limit : Z) : ResponseWriter :=
  mkResponseWriter
    (<["X-RateLimit-Remaining" := ["0"%string]]>
       (<["X-RateLimit-Limit" := [Sprintf_d limit]]>
          (<["Content-Type" := ["application/json"%string]]> ∅)))
    (Some StatusTooManyRequests)
    (error_body "Rate limit exceeded. Try again later.").

(** The response of [DebugRateLimitMiddleware] to a rejected request that
    the regular limiter had admitted with the given limit header. *)
Definition debug_limit_rejection (limit : Z) : ResponseWriter :=
  mkResponseWriter
    (<["X-RateLimit-Remaining" := ["0"%string]]>
       (<["X-RateLimit-Limit" := ["100"%string]]>
          (<["Content-Type" := ["application/json"%string]]>
             (<["X-RateLimit-Limit" := [Sprintf_d limit]]> ∅))))
    (Some StatusTooManyRequests)
    (error_body "Debug endpoint rate limit exceeded. Try again later.").

(** A request with no proxy header, from [host:port]. *)
Definition direct_request (host path port : string) : HttpRequest :=
  mkHttpRequest (mkRequest ∅ (host +:+ ":" +:+ port)) path None.

(** ** Arithmetic of the embedding *)

(** Case analysis on every integer test of the goal. *)
Ltac Z_cases :=
  repeat match goal with
    | |- context [?a <? ?b] => destruct (Z.ltb_spec a b)
    | |- context [?a =? ?b] => destruct (Z.eqb_spec a b)
    end.

Lemma wrap_int_id (x : Z) : min_int ≤ x ≤ max_int → wrap_int x = x.
Proof.
  unfold wrap_int, min_int, max_int. intros Hx.
  rewrite Z.mod_small; lia.
Qed.

Lemma Sub_self (t : Z) : time.Sub t t = 0.
Proof. unfold time.Sub, time.minDuration, time.maxDuration, min_int, max_int. lia. Qed.

Lemma Sub_exact (t u : Z) :
  min_int ≤ t - u ≤ max_int → time.Sub t u = t - u.
Proof. unfold time.Sub, time.minDuration, time.maxDuration. lia. Qed.

(** *** Rounding *)

(** [rne a b] is within one half of [a / b]. *)
Lemma rne_bounds (a b : Z) :
  0 < b → 2 * a - b ≤ 2 * (rne a b * b) ≤ 2 * a + b.
Proof.
  intros Hb. unfold rne.
  pose proof (Z.div_mod a b ltac:(lia)) as Hdm.
  pose proof (Z.mod_pos_bound a b Hb) as Hr.
  destruct (Z.ltb_spec (2 * (a mod b)) b); [nia|].
  destruct (Z.ltb_spec b (2 * (a mod b))); [nia|].
  destruct (Z.even (a / b)); nia.
Qed.

Lemma pow2_pos (k : Z) : 0 < 2 ^ Z.max 0 k.
Proof. apply Z.pow_pos_nonneg; lia. Qed.

(** [2^k <= n / d] with both sides scaled by [2^j], and back. *)
Lemma above_pow2_shift (n d k j : Z) :
  0 < n → 0 < d → 0 ≤ j →
  above_pow2 n d k →
  2 ^ j * (d * 2 ^ Z.max 0 (k - j)) ≤ n * 2 ^ Z.max 0 (j - k).
Proof.
  intros Hn Hd Hj. unfold above_pow2.
  destruct (Z.le_gt_cases 0 k) as [Hk|Hk].
  - rewrite (Z.max_l 0 (- k)), Z.pow_0_r, Z.mul_1_r by lia.
    rewrite (Z.max_r 0 k) by lia.
    destruct (Z.le_gt_cases j k) as [Hjk|Hjk].
    + rewrite (Z.max_l 0 (j - k)), Z.pow_0_r, Z.mul_1_r by lia.
      rewrite (Z.max_r 0 (k - j)) by lia.
      replace k with (j + (k - j)) at 1 by lia.
      rewrite Z.pow_add_r by lia. lia.
    + rewrite (Z.max_l 0 (k - j)), Z.pow_0_r, Z.mul_1_r by lia.
      rewrite (Z.max_r 0 (j - k)) by lia.
      replace j with (k + (j - k)) at 1 by lia.
      rewrite Z.pow_add_r by lia.
      pose proof (Z.pow_pos_nonneg 2 (j - k) ltac:(lia) ltac:(lia)).
      pose proof (Z.pow_pos_nonneg 2 k ltac:(lia) ltac:(lia)).
      nia.
  - rewrite (Z.max_l 0 k), Z.pow_0_r, Z.mul_1_r by lia.
    rewrite (Z.max_r 0 (- k)) by lia.
    rewrite (Z.max_l 0 (k - j)), Z.pow_0_r, Z.mul_1_r by lia.
    rewrite (Z.max_r 0 (j - k)) by lia.
    replace (j - k) with (j + - k) by lia.
    rewrite Z.pow_add_r by lia.
    pose proof (Z.pow_pos_nonneg 2 j ltac:(lia) ltac:(lia)).
    nia.
Qed.

(** [binade n d] is the exponent of [n / d]: [2^k <= n / d], and
    [n / d < 2^(k+1)] below. *)
Lemma binade_above (n d : Z) : 0 < n → 0 < d → above_pow2 n d (binade n d).
Proof.
  intros Hn Hd. unfold binade.
  set (k := Z.log2 n - Z.log2 d).
  destruct (Z.ltb_spec (n * 2 ^ Z.max 0 (- k)) (d * 2 ^ Z.max 0 k)) as [Hlt|Hge];
    [|exact Hge].
  unfold above_pow2.
  pose proof (Z.log2_spec n Hn) as [Hn1 _].
  pose proof (Z.log2_spec d Hd) as [_ Hd2].
  pose proof (Z.log2_nonneg n). pose proof (Z.log2_nonneg d).
  rewrite Z.pow_succ_r in Hd2 by lia.
  destruct (Z.le_gt_cases 0 (k - 1)) as [Hk|Hk].
  - rewrite (Z.max_l 0 (- (k - 1))), Z.pow_0_r, Z.mul_1_r by lia.
    rewrite (Z.max_r 0 (k - 1)) by lia.
    assert (Hpow : 2 ^ Z.log2 n = 2 ^ Z.log2 d * 2 * 2 ^ (k - 1)).
    { replace (Z.log2 n) with (Z.log2 d + 1 + (k - 1)) at 1 by lia.
      rewrite !Z.pow_add_r by lia. lia. }
    pose proof (Z.pow_pos_nonneg 2 (k - 1) ltac:(lia) ltac:(lia)).
    pose proof (Z.pow_pos_nonneg 2 (Z.log2 d) ltac:(lia) ltac:(lia)).
    assert (d * 2 ^ (k - 1) ≤ 2 ^ Z.log2 d * 2 * 2 ^ (k - 1)) by nia.
    lia.
  - rewrite (Z.max_l 0 (k - 1)), Z.pow_0_r, Z.mul_1_r by lia.
    rewrite (Z.max_r 0 (- (k - 1))) by lia.
    assert (Hpow : 2 ^ Z.log2 d * 2 = 2 ^ Z.log2 n * 2 ^ (- (k - 1))).
    { replace (- (k - 1)) with (Z.log2 d + 1 - Z.log2 n) by lia.
      rewrite <- Z.pow_add_r by lia.
      replace (Z.log2 n + (Z.log2 d + 1 - Z.log2 n)) with (Z.log2 d + 1) by lia.
      rewrite Z.pow_add_r by lia. lia. }
    pose proof (Z.pow_pos_nonneg 2 (- (k - 1)) ltac:(lia) ltac:(lia)).
    assert (2 ^ Z.log2 n * 2 ^ (- (k - 1)) ≤ n * 2 ^ (- (k - 1))) by nia.
    lia.
Qed.

(** Rounding moves a positive value by a factor between [1 - 2^-53] and
    [1 + 2^-53]. *)
Lemma round_pos_bounds (n d : positive) :
  ((Zpos n # d) * (1 - u64) <= round_pos (Zpos n) (Zpos d)
   ∧ round_pos (Zpos n) (Zpos d) <= (Zpos n # d) * (1 + u64))%Q.
Proof.
  unfold round_pos.
  set (s := 52 - binade (Zpos n) (Zpos d)).
  set (a := Zpos n * 2 ^ Z.max 0 s).
  set (b := Zpos d * 2 ^ Z.max 0 (- s)).
  pose proof (pow2_pos s) as Hs1. pose proof (pow2_pos (- s)) as Hs2.
  assert (Hb : 0 < b) by (subst b; nia).
  pose proof (rne_bounds a b Hb) as Hm.
  pose proof (above_pow2_shift (Zpos n) (Zpos d) (binade (Zpos n) (Zpos d)) 52
                ltac:(lia) ltac:(lia) ltac:(lia)
                (binade_above (Zpos n) (Zpos d) ltac:(lia) ltac:(lia))) as Hlow.
  replace (binade (Zpos n) (Zpos d) - 52) with (- s) in Hlow by (subst s; lia).
  fold s in Hlow. fold a b in Hlow.
  set (m := rne a b) in *.
  rewrite Qred_correct.
  unfold Qle, Qmult, Qminus, Qplus, Qopp, u64; cbn [Qnum Qden].
  rewrite !Pos2Z.inj_mul, Z2Pos.id by exact Hs1.
  change (Z.pos (2 ^ 53)) with (2 ^ 53).
  change (2 ^ 52) with 4503599627370496 in *.
  change (2 ^ 53) with 9007199254740992 in *.
  assert (Ha : a = Zpos n * 2 ^ Z.max 0 s) by reflexivity.
  assert (Hbb : b = Zpos d * 2 ^ Z.max 0 (- s)) by reflexivity.
  clearbody a b m.
  set (S1 := 2 ^ Z.max 0 s) in *. set (S2 := 2 ^ Z.max 0 (- s)) in *.
  clearbody S1 S2. subst a b.
  split; nia.
Qed.

Lemma above_pow2_unshift (n d k j : Z) :
  0 < n → 0 < d → 0 ≤ j →
  2 ^ j * (d * 2 ^ Z.max 0 (k - j)) ≤ n * 2 ^ Z.max 0 (j - k) →
  above_pow2 n d k.
Proof.
  intros Hn Hd Hj. unfold above_pow2.
  pose proof (Z.pow_pos_nonneg 2 j ltac:(lia) Hj) as Hpj.
  destruct (Z.le_gt_cases 0 k) as [Hk|Hk].
  - rewrite (Z.max_l 0 (- k)), Z.pow_0_r, Z.mul_1_r by lia.
    rewrite (Z.max_r 0 k) by lia.
    destruct (Z.le_gt_cases j k) as [Hjk|Hjk].
    + rewrite (Z.max_l 0 (j - k)), Z.pow_0_r, Z.mul_1_r by lia.
      rewrite (Z.max_r 0 (k - j)) by lia.
      replace k with (j + (k - j)) at 2 by lia.
      rewrite Z.pow_add_r by lia. lia.
    + rewrite (Z.max_l 0 (k - j)), Z.pow_0_r, Z.mul_1_r by lia.
      rewrite (Z.max_r 0 (j - k)) by lia.
      replace j with (k + (j - k)) at 1 by lia.
      rewrite Z.pow_add_r by lia.
      pose proof (Z.pow_pos_nonneg 2 (j - k) ltac:(lia) ltac:(lia)).
      pose proof (Z.pow_pos_nonneg 2 k ltac:(lia) ltac:(lia)).
      nia.
  - rewrite (Z.max_l 0 k), Z.pow_0_r, Z.mul_1_r by lia.
    rewrite (Z.max_r 0 (- k)) by lia.
    rewrite (Z.max_l 0 (k - j)), Z.pow_0_r, Z.mul_1_r by lia.
    rewrite (Z.max_r 0 (j - k)) by lia.
    replace (j - k) with (j + - k) by lia.
    rewrite Z.pow_add_r by lia.
    pose proof (Z.pow_pos_nonneg 2 (- k) ltac:(lia) ltac:(lia)).
    nia.
Qed.

Lemma binade_below (n d : Z) :
  0 < n → 0 < d → ¬ above_pow2 n d (binade n d + 1).
Proof.
  intros Hn Hd. unfold binade.
  set (k := Z.log2 n - Z.log2 d).
  destruct (Z.ltb_spec (n * 2 ^ Z.max 0 (- k)) (d * 2 ^ Z.max 0 k)) as [Hlt|Hge].
  - replace (k - 1 + 1) with k by lia. unfold above_pow2. lia.
  - unfold above_pow2.
    pose proof (Z.log2_spec n Hn) as [_ Hn2].
    pose proof (Z.log2_spec d Hd) as [Hd1 _].
    pose proof (Z.log2_nonneg n). pose proof (Z.log2_nonneg d).
    destruct (Z.le_gt_cases 0 (k + 1)) as [Hk|Hk].
    + rewrite (Z.max_l 0 (- (k + 1))), Z.pow_0_r, Z.mul_1_r by lia.
      rewrite (Z.max_r 0 (k + 1)) by lia.
      assert (Hpow : 2 ^ Z.succ (Z.log2 n) = 2 ^ Z.log2 d * 2 ^ (k + 1)).
      { rewrite <- Z.pow_add_r by lia. f_equal. lia. }
      pose proof (Z.pow_pos_nonneg 2 (k + 1) ltac:(lia) ltac:(lia)).
      assert (2 ^ Z.log2 d * 2 ^ (k + 1) ≤ d * 2 ^ (k + 1)) by nia.
      lia.
    + rewrite (Z.max_l 0 (k + 1)), Z.pow_0_r, Z.mul_1_r by lia.
      rewrite (Z.max_r 0 (- (k + 1))) by lia.
      assert (Hpow : 2 ^ Z.succ (Z.log2 n) * 2 ^ (- (k + 1)) = 2 ^ Z.log2 d).
      { rewrite <- Z.pow_add_r by lia. f_equal. lia. }
      pose proof (Z.pow_pos_nonneg 2 (- (k + 1)) ltac:(lia) ltac:(lia)).
      assert (n * 2 ^ (- (k + 1)) < 2 ^ Z.succ (Z.log2 n) * 2 ^ (- (k + 1))) by nia.
      lia.
Qed.

(** The scaled quotient of [round_pos] lies in [[2^52, 2^53)], so that the
    rounded integer has 53 bits, or is [2^53]. *)
Lemma round_pos_mantissa (n d : Z) :
  0 < n → 0 < d →
  let s := 52 - binade n d in
  let a := n * 2 ^ Z.max 0 s in
  let b := d * 2 ^ Z.max 0 (- s) in
  2 ^ 52 * b ≤ a < 2 ^ 53 * b ∧ 2 ^ 52 ≤ rne a b ≤ 2 ^ 53.
Proof.
  intros Hn Hd s a b.
  pose proof (pow2_pos s) as Hs1. pose proof (pow2_pos (- s)) as Hs2.
  assert (Hb : 0 < b) by (subst b; nia).
  pose proof (above_pow2_shift n d (binade n d) 52 Hn Hd ltac:(lia)
                (binade_above n d Hn Hd)) as Hlow.
  replace (binade n d - 52) with (- s) in Hlow by (subst s; lia).
  fold s in Hlow. fold a b in Hlow.
  assert (Hup : a < 2 ^ 53 * b).
  { apply Z.nle_gt. intros Hc. apply (binade_below n d Hn Hd).
    apply (above_pow2_unshift n d (binade n d + 1) 53 Hn Hd ltac:(lia)).
    replace (binade n d + 1 - 53) with (- s) by (subst s; lia).
    replace (53 - (binade n d + 1)) with s by (subst s; lia).
    exact Hc. }
  split; [split; assumption|].
  pose proof (rne_bounds a b Hb) as Hm.
  change (2 ^ 52) with 4503599627370496 in *.
  change (2 ^ 53) with 9007199254740992 in *.
  nia.
Qed.

(** The same for every value that is not negative. *)
Lemma round64_bounds (x : Q) :
  (0 <= x → x * (1 - u64) <= round64 x ∧ round64 x <= x * (1 + u64))%Q.
Proof.
  destruct x as [[|n|n] d]; intros Hx.
  - unfold round64; cbn [Qnum]. split; unfold Qle; cbn; lia.
  - unfold round64; cbn [Qnum Qden]. apply round_pos_bounds.
  - exfalso. unfold Qle in Hx; cbn in Hx. lia.
Qed.

(** How approximations compose: exact values, equal values, wider
    factors, one more rounding, sums, products and quotients by a
    constant. *)
Lemma within_exact (x : Q) : (0 <= x)%Q → within 1 1 x x.
Proof. intros Hx. unfold within. lra. Qed.

Lemma within_eq (lo hi x x' y y' : Q) :
  (x == x')%Q → (y == y')%Q → within lo hi x y → within lo hi x' y'.
Proof. intros Hx Hy (H0 & H1 & H2). unfold within. rewrite <- Hx, <- Hy. done. Qed.

Lemma within_weaken (lo hi lo' hi' x y : Q) :
  (lo' <= lo)%Q → (hi <= hi')%Q → within lo hi x y → within lo' hi' x y.
Proof.
  intros Hlo Hhi (H0 & H1 & H2). unfold within. split; [exact H0|]. split.
  - eapply Qle_trans; [|exact H1]. rewrite !(Qmult_comm x).
    apply Qmult_le_compat_r; assumption.
  - eapply Qle_trans; [exact H2|]. rewrite !(Qmult_comm x).
    apply Qmult_le_compat_r; assumption.
Qed.

Lemma within_round (lo hi x y : Q) :
  (0 <= lo)%Q → within lo hi x y →
  within (lo * (1 - u64)) (hi * (1 + u64)) x (round64 y).
Proof.
  intros Hlo (H0 & H1 & H2).
  assert (Hy : (0 <= y)%Q).
  { eapply Qle_trans; [|exact H1]. apply Qmult_le_0_compat; assumption. }
  destruct (round64_bounds y Hy) as [Hr1 Hr2].
  assert (Hu1 : (0 <= 1 - u64)%Q) by (unfold Qle; cbn; lia).
  assert (Hu2 : (0 <= 1 + u64)%Q) by (unfold Qle; cbn; lia).
  unfold within. split; [exact H0|]. split.
  - eapply Qle_trans; [|exact Hr1]. rewrite Qmult_assoc.
    apply Qmult_le_compat_r; assumption.
  - eapply Qle_trans; [exact Hr2|]. rewrite Qmult_assoc.
    apply Qmult_le_compat_r; assumption.
Qed.

Lemma within_add (lo hi x1 y1 x2 y2 : Q) :
  within lo hi x1 y1 → within lo hi x2 y2 → within lo hi (x1 + x2) (y1 + y2).
Proof.
  intros (H0 & H1 & H2) (H0' & H1' & H2'). unfold within.
  rewrite !Qmult_plus_distr_l. lra.
Qed.

Lemma within_mul (lo1 hi1 lo2 hi2 x1 y1 x2 y2 : Q) :
  (0 <= lo1)%Q → (0 <= lo2)%Q →
  within lo1 hi1 x1 y1 → within lo2 hi2 x2 y2 →
  within (lo1 * lo2) (hi1 * hi2) (x1 * x2) (y1 * y2).
Proof.
  intros Hl1 Hl2 (H0 & H1 & H2) (H0' & H1' & H2').
  assert (Hy1 : (0 <= y1)%Q).
  { eapply Qle_trans; [|exact H1]. apply Qmult_le_0_compat; assumption. }
  assert (Hy2 : (0 <= y2)%Q).
  { eapply Qle_trans; [|exact H1']. apply Qmult_le_0_compat; assumption. }
  unfold within. split; [apply Qmult_le_0_compat; assumption|]. split.
  - setoid_replace (x1 * x2 * (lo1 * lo2))%Q with ((x1 * lo1) * (x2 * lo2))%Q using relation Qeq by ring.
    apply Qmult_le_compat_nonneg; split;
      try assumption; apply Qmult_le_0_compat; assumption.
  - setoid_replace (x1 * x2 * (hi1 * hi2))%Q with ((x1 * hi1) * (x2 * hi2))%Q using relation Qeq by ring.
    apply Qmult_le_compat_nonneg; split; assumption.
Qed.

Lemma within_div (lo hi x y c c' : Q) :
  (0 < c)%Q → (c' == c)%Q →
  within lo hi x y → within lo hi (x / c) (y / c').
Proof.
  intros Hc Hcc (H0 & H1 & H2).
  assert (Hi : (0 <= / c)%Q) by (apply Qlt_le_weak, Qinv_lt_0_compat; exact Hc).
  unfold within, Qdiv. rewrite Hcc. split; [apply Qmult_le_0_compat; assumption|].
  split.
  - setoid_replace (x * / c * lo)%Q with (x * lo * / c)%Q using relation Qeq by ring.
    apply Qmult_le_compat_r; assumption.
  - setoid_replace (x * / c * hi)%Q with (x * hi * / c)%Q using relation Qeq by ring.
    apply Qmult_le_compat_r; assumption.
Qed.

(** An inequality between two closed rationals. *)
Ltac q_le := apply Qle_bool_imp_le; vm_compute; reflexivity.

(** The conversion of an [int] that is not negative. *)
Lemma float64_within (n : Z) :
  0 ≤ n → within (1 * (1 - u64)) (1 * (1 + u64)) (inject_Z n) (float64 n).
Proof.
  intros Hn. apply within_round; [unfold Qle; cbn; lia|].
  apply within_exact. unfold Qle; cbn; lia.
Qed.

(** The product [timeElapsed.Seconds() * float64(rate)] against the exact
    [elapsed * rate / 1e9]: two conversions, a quotient, a sum and a
    product, each rounded once. *)
Lemma product_within (r e : Z) :
  0 ≤ e → 0 ≤ r →
  within slack_lo slack_hi ((e * r) # 1000000000) (fmul (time.Seconds e) (float64 r)).
Proof.
  intros He Hr.
  assert (Hsec : 0 ≤ e ÷ time.Second) by (apply Z.quot_pos; unfold time.Second; lia).
  assert (Hnsec : 0 ≤ Z.rem e time.Second).
  { apply Z.rem_nonneg; unfold time.Second; lia. }
  pose proof (float64_within _ Hsec) as Ha.
  pose proof (float64_within _ Hnsec) as Hb.
  pose proof (float64_within _ Hr) as Hc.
  assert (H9 : (float64 1000000000 == 1000000000 # 1)%Q) by (vm_compute; reflexivity).
  pose proof (within_div _ _ _ _ (1000000000 # 1) _ ltac:(reflexivity) H9 Hb) as Hd.
  apply within_round in Hd; [|q_le].
  eapply within_weaken in Ha; [| |].
  2:{ instantiate (1 := (1 * (1 - u64) * (1 - u64))%Q). q_le. }
  2:{ instantiate (1 := (1 * (1 + u64) * (1 + u64))%Q). q_le. }
  pose proof (within_add _ _ _ _ _ _ Ha Hd) as Hs.
  apply within_round in Hs; [|q_le].
  pose proof (λ H1 H2, within_mul _ _ _ _ _ _ _ _ H1 H2 Hs Hc) as Hp.
  specialize (Hp ltac:(q_le) ltac:(q_le)).
  apply within_round in Hp; [|q_le].
  eapply within_weaken; [| |eapply within_eq; [|reflexivity|exact Hp]].
  - q_le.
  - q_le.
  - unfold Qeq, Qdiv, Qmult, Qplus, Qinv, inject_Z; cbn [Qnum Qden].
    pose proof (Z.quot_rem' e time.Second) as Hqr. unfold time.Second in *.
    rewrite !Pos2Z.inj_mul. lia.
Qed.

(** [int(f)] of a value that is not negative is its integer part, when
    that fits; it never exceeds it. *)
Lemma int_of_float64_floor (f : Q) :
  (0 <= f)%Q → Qfloor f ≤ max_int → int_of_float64 f = Qfloor f.
Proof.
  destruct f as [n d]. unfold Qle; cbn [Qnum Qden]. intros Hf Hmax.
  unfold int_of_float64, Qfloor in *; cbn [Qnum Qden].
  rewrite Z.quot_div_nonneg by lia.
  pose proof (Z.div_pos n (Zpos d) ltac:(lia) ltac:(lia)).
  destruct (Z.leb_spec min_int (n / Zpos d)); [|unfold min_int in *; lia].
  destruct (Z.leb_spec (n / Zpos d) max_int); [reflexivity | lia].
Qed.

Lemma int_of_float64_le_floor (f : Q) :
  (0 <= f)%Q → int_of_float64 f ≤ Qfloor f.
Proof.
  destruct f as [n d]. unfold Qle; cbn [Qnum Qden]. intros Hf.
  unfold int_of_float64, Qfloor; cbn [Qnum Qden].
  rewrite Z.quot_div_nonneg by lia.
  pose proof (Z.div_pos n (Zpos d) ltac:(lia) ltac:(lia)).
  destruct (_ && _); [lia | unfold min_int; lia].
Qed.

(** The grant between [refill_floor] and [refill_bound]. *)
Lemma grant_le (r e : Z) :
  0 ≤ e → 0 ≤ r → grant r e ≤ refill_bound r e.
Proof.
  intros He Hr. destruct (product_within r e He Hr) as (H0 & H1 & H2).
  unfold grant.
  set (v := fmul (time.Seconds e) (float64 r)) in *.
  assert (Hv : (0 <= v)%Q).
  { eapply Qle_trans; [|exact H1].
    apply Qmult_le_0_compat; [exact H0 | q_le]. }
  etransitivity; [apply int_of_float64_le_floor; exact Hv|].
  etransitivity; [apply Qfloor_resp_le; exact H2|].
  unfold refill_bound, Qfloor, Qmult, slack_hi, slack, time.Second; cbn [Qnum Qden].
  apply Z.eq_le_incl. f_equal.
Qed.

Lemma grant_ge (r e : Z) :
  0 ≤ e → 0 ≤ r →
  refill_bound r e ≤ max_int →
  refill_floor r e ≤ grant r e.
Proof.
  intros He Hr Hfit. destruct (product_within r e He Hr) as (H0 & H1 & H2).
  unfold grant.
  set (v := fmul (time.Seconds e) (float64 r)) in *.
  assert (Hv : (0 <= v)%Q).
  { eapply Qle_trans; [|exact H1].
    apply Qmult_le_0_compat; [exact H0 | q_le]. }
  rewrite int_of_float64_floor; [|exact Hv|].
  - etransitivity; [|apply Qfloor_resp_le; exact H1].
    unfold refill_floor, Qfloor, Qmult, slack_lo, slack, time.Second; cbn [Qnum Qden].
    apply Z.eq_le_incl. f_equal.
  - etransitivity; [apply Qfloor_resp_le; exact H2|].
    etransitivity; [|exact Hfit].
    unfold refill_bound, Qfloor, Qmult, slack_hi, slack, time.Second; cbn [Qnum Qden].
    apply Z.eq_le_incl. f_equal.
Qed.

(** No time elapsed: the product is [0 * float64(rate)], which is 0. *)
Lemma grant_zero (r : Z) : grant r 0 = 0.
Proof.
  unfold grant. replace (time.Seconds 0) with 0%Q by (vm_compute; reflexivity).
  unfold fmul, Qmult; cbn [Qnum Qden]. reflexivity.
Qed.

(** Below one token's worth of time the product stays below 1. *)
Lemma grant_small (r e : Z) :
  0 ≤ e → 0 ≤ r → e * r < time.Second → grant r e = 0.
Proof.
  intros He Hr Hlt.
  pose proof (grant_le r e He Hr) as Hle.
  assert (Hz : refill_bound r e = 0).
  { apply Z.div_small. unfold slack, time.Second in *. nia. }
  pose proof (grant_ge r e He Hr ltac:(rewrite Hz; unfold max_int; lia)) as Hge.
  assert (0 ≤ refill_floor r e).
  { apply Z.div_pos; unfold slack, time.Second; nia. }
  lia.
Qed.

(** Exactly one token's worth of time: [elapsed * rate = 1e9] has one
    factor at most 31622, and each divisor of [1e9] up to there is checked
    by evaluation, both as the rate and as the elapsed time. *)
Lemma forallb_upto (P : Z → bool) (n : nat) (k x : Z) :
  forallb P (upto n k) = true → k ≤ x < k + Z.of_nat n → P x = true.
Proof.
  revert k. induction n as [|n IH]; intros k Hall Hx; [lia|].
  cbn [upto forallb] in Hall. apply andb_true_iff in Hall as [Hk Hall].
  destruct (Z.eq_dec k x) as [<-|Hne]; [exact Hk|].
  apply (IH (k + 1)); [exact Hall | lia].
Qed.

Lemma whole_token_checked :
  forallb whole_token_at (upto (Z.to_nat 31622) 1) = true.
Proof. vm_compute. reflexivity. Qed.

Lemma whole_token_small (k : Z) : 1 ≤ k ≤ 31622 → whole_token_at k = true.
Proof.
  intros Hk. apply (forallb_upto _ (Z.to_nat 31622) 1); [exact whole_token_checked|].
  rewrite Z2Nat.id; lia.
Qed.

Lemma grant_whole_token (r e : Z) :
  0 < e → 0 < r → e * r = time.Second → grant r e = 1.
Proof.
  intros He Hr Hprod.
  assert (Hsmall : e ≤ 31622 ∨ r ≤ 31622) by (unfold time.Second in *; nia).
  destruct Hsmall as [Hs|Hs].
  - pose proof (whole_token_small e ltac:(lia)) as Hall. unfold whole_token_at in Hall.
    assert (Hq : time.Second / e = r) by (rewrite <- Hprod, Z.mul_comm; apply Z.div_mul; lia).
    assert (Hm : time.Second mod e = 0) by (rewrite <- Hprod, Z.mul_comm; apply Z.mod_mul; lia).
    rewrite Hm, Hq in Hall. cbn [Z.eqb] in Hall.
    apply andb_true_iff in Hall as [_ Hall]. apply Z.eqb_eq. exact Hall.
  - pose proof (whole_token_small r ltac:(lia)) as Hall. unfold whole_token_at in Hall.
    assert (Hq : time.Second / r = e) by (rewrite <- Hprod; apply Z.div_mul; lia).
    assert (Hm : time.Second mod r = 0) by (rewrite <- Hprod; apply Z.mod_mul; lia).
    rewrite Hm, Hq in Hall. cbn [Z.eqb] in Hall.
    apply andb_true_iff in Hall as [Hall _]. apply Z.eqb_eq. exact Hall.
Qed.

(** One token's worth of time or more: the exact product is 1, or at least
    [1 + 1e-9], which the roundings do not bring below 1. *)
Lemma grant_progress (r e : Z) :
  0 ≤ e → 0 ≤ r → time.Second ≤ e * r →
  refill_bound r e ≤ max_int →
  1 ≤ grant r e.
Proof.
  intros He Hr Hwait Hfit.
  destruct (Z.eq_dec (e * r) time.Second) as [Heq|Hne].
  - rewrite grant_whole_token; [lia | | | exact Heq]; unfold time.Second in *; nia.
  - etransitivity; [|apply grant_ge; assumption].
    apply Z.div_le_lower_bound; unfold slack, time.Second in *; nia.
Qed.

(** *** The grant *)

Lemma tokensToAdd_grant (rl : RateLimiter) (e : Z) :
  tokensToAdd rl e = grant (requestsPerSecond rl) e.
Proof. reflexivity. Qed.

(** No time elapsed, nothing granted. *)
Lemma tokensToAdd_zero (rl : RateLimiter) : tokensToAdd rl 0 = 0.
Proof. rewrite tokensToAdd_grant. apply grant_zero. Qed.

(** The grant is a machine integer. *)
Lemma tokensToAdd_range (rl : RateLimiter) (e : Z) :
  min_int ≤ tokensToAdd rl e ≤ max_int.
Proof.
  unfold tokensToAdd, int_of_float64. cbn zeta.
  destruct (Z.leb_spec min_int
              (Qnum (fmul (time.Seconds e) (float64 (requestsPerSecond rl)))
               ÷ Zpos (Qden (fmul (time.Seconds e) (float64 (requestsPerSecond rl))))));
    cbn [andb]; [|unfold min_int, max_int; lia].
  destruct (Z.leb_spec
              (Qnum (fmul (time.Seconds e) (float64 (requestsPerSecond rl)))
               ÷ Zpos (Qden (fmul (time.Seconds e) (float64 (requestsPerSecond rl)))))
              max_int);
    [lia | unfold min_int, max_int; lia].
Qed.

(** The rounding of the product never grants more than [refill_bound]. *)
Lemma tokensToAdd_le (rl : RateLimiter) (e : Z) :
  0 ≤ e → 0 ≤ requestsPerSecond rl →
  tokensToAdd rl e ≤ refill_bound (requestsPerSecond rl) e.
Proof. intros. rewrite tokensToAdd_grant. apply grant_le; assumption. Qed.

(** Nor less than [refill_floor], when the bound fits a machine integer. *)
Lemma tokensToAdd_ge (rl : RateLimiter) (e : Z) :
  0 ≤ e → 0 ≤ requestsPerSecond rl →
  refill_bound (requestsPerSecond rl) e ≤ max_int →
  refill_floor (requestsPerSecond rl) e ≤ tokensToAdd rl e.
Proof. intros. rewrite tokensToAdd_grant. apply grant_ge; assumption. Qed.

(** Less than one token's worth of time grants nothing. *)
Lemma tokensToAdd_small (rl : RateLimiter) (e : Z) :
  0 ≤ e → 0 ≤ requestsPerSecond rl → e * requestsPerSecond rl < time.Second →
  tokensToAdd rl e = 0.
Proof. intros. rewrite tokensToAdd_grant. apply grant_small; assumption. Qed.

(** One token's worth of time or more grants at least one token. *)
Lemma tokensToAdd_progress (rl : RateLimiter) (e : Z) :
  0 ≤ e → 0 ≤ requestsPerSecond rl → time.Second ≤ e * requestsPerSecond rl →
  refill_bound (requestsPerSecond rl) e ≤ max_int →
  1 ≤ tokensToAdd rl e.
Proof. intros. rewrite tokensToAdd_grant. apply grant_progress; assumption. Qed.

Lemma clamp_tokens_range (rl : RateLimiter) (x : Z) :
  0 ≤ burstSize rl → 0 ≤ clamp_tokens rl x ≤ burstSize rl.
Proof.
  intros Hb. unfold clamp_tokens.
  destruct (Z.ltb_spec (burstSize rl) x); Z_cases; lia.
Qed.

Lemma clamp_tokens_min (rl : RateLimiter) (x : Z) :
  0 ≤ burstSize rl → 0 ≤ x → clamp_tokens rl x = Z.min (burstSize rl) x.
Proof.
  intros Hb Hx. unfold clamp_tokens.
  destruct (Z.ltb_spec (burstSize rl) x); Z_cases; lia.
Qed.

Lemma calculateCurrentTokens_range (rl : RateLimiter) (clientID : string) (now : Z) :
  0 ≤ burstSize rl → 0 ≤ calculateCurrentTokens rl clientID now ≤ burstSize rl.
Proof.
  intros Hb. unfold calculateCurrentTokens.
  destruct (lastUpdate rl !! clientID); cbn;
    [apply clamp_tokens_range; exact Hb | lia].
Qed.

(** ** The eviction sweep *)

Lemma sweep_lookup (cutoff : Z) (T L m : gmap string Z) (k : string) :
  (map_fold (sweep_step cutoff) (T, L) m).1 !! k = sweep_kept cutoff m T k
  ∧ (map_fold (sweep_step cutoff) (T, L) m).2 !! k = sweep_kept cutoff m L k.
Proof.
  revert k.
  apply (map_fold_weak_ind
           (λ acc m, ∀ k, acc.1 !! k = sweep_kept cutoff m T k
                          ∧ acc.2 !! k = sweep_kept cutoff m L k)).
  - intros k. unfold sweep_kept. rewrite lookup_empty. done.
  - intros i t m' acc Hi IH k. unfold sweep_kept, sweep_step.
    destruct (decide (i = k)) as [->|Hne].
    + rewrite lookup_insert_eq.
      destruct (time.Before t cutoff); cbn.
      * rewrite !lookup_delete_eq. done.
      * specialize (IH k). unfold sweep_kept in IH. rewrite Hi in IH. exact IH.
    + rewrite lookup_insert_ne by done.
      destruct (time.Before t cutoff); cbn.
      * rewrite !lookup_delete_ne by done. apply IH.
      * apply IH.
Qed.

Lemma cleanup_spec (rl : RateLimiter) (now : Z) :
  ∃ tk lu : gmap string Z,
    cleanup rl now = set_maps rl tk lu
    ∧ (∀ k, tk !! k = if stale rl now k then None else tokens rl !! k)
    ∧ (∀ k, lu !! k = if stale rl now k then None else lastUpdate rl !! k).
Proof.
  unfold cleanup.
  set (cutoff := time.Add now (wrap_int (- inactiveThreshold rl))).
  pose proof (sweep_lookup cutoff (tokens rl) (lastUpdate rl) (lastUpdate rl)) as Hs.
  destruct (map_fold _ _ _) as [tk lu] eqn:Hfold.
  exists tk, lu. split; [reflexivity|].
  split; intros k; destruct (Hs k) as [Ht Hl]; cbn [fst snd] in Ht, Hl;
    [rewrite Ht | rewrite Hl]; unfold stale, sweep_kept; fold cutoff;
    destruct (lastUpdate rl !! k) as [t|] eqn:Hk; try reflexivity;
    destruct (time.Before t cutoff); reflexivity.
Qed.

(** ** What one [Allow] call does *)

Lemma same_config_refl (rl : RateLimiter) : same_config rl rl.
Proof. done. Qed.

Lemma same_config_trans (rl1 rl2 rl3 : RateLimiter) :
  same_config rl1 rl2 → same_config rl2 rl3 → same_config rl1 rl3.
Proof. unfold same_config. intuition congruence. Qed.

Lemma Allow_cleanup_spec (now cleanupNow : Z) (rl : RateLimiter) :
  let rl1 := Allow_cleanup now cleanupNow rl in
  same_config rl1 rl
  ∧ (∀ k, tokens rl1 !! k = if swept rl now cleanupNow k then None else tokens rl !! k)
  ∧ (∀ k, lastUpdate rl1 !! k =
            if swept rl now cleanupNow k then None else lastUpdate rl !! k)
  ∧ lastCleanup rl1 =
      (if cleanupInterval rl <? time.Sub now (lastCleanup rl) then now
       else lastCleanup rl).
Proof.
  unfold Allow_cleanup, swept.
  destruct (cleanupInterval rl <? time.Sub now (lastCleanup rl)); cbn.
  - destruct (cleanup_spec rl cleanupNow) as (tk & lu & -> & Htk & Hlu).
    cbn. repeat split; assumption.
  - repeat split; reflexivity.
Qed.

Lemma Allow_cleanup_absent (now cleanupNow : Z) (rl : RateLimiter) (k : string) :
  tokens rl !! k = None →
  tokens (Allow_cleanup now cleanupNow rl) !! k = None.
Proof.
  intros Hk. destruct (Allow_cleanup_spec now cleanupNow rl) as (_ & Ht & _).
  rewrite Ht, Hk. destruct (swept _ _ _ _); reflexivity.
Qed.

(** A bucket whose [lastUpdate] is the instant of the call: no time has
    elapsed, nothing is granted. *)
Lemma calculateCurrentTokens_now (rl : RateLimiter) (clientID : string) (now n : Z) :
  tokens rl !! clientID = Some n →
  lastUpdate rl !! clientID = Some now →
  calculateCurrentTokens rl clientID now = clamp_tokens rl (wrap_int n).
Proof.
  intros Ht Hl. unfold calculateCurrentTokens, tokens_at.
  rewrite Hl, Ht, Sub_self, tokensToAdd_zero, Z.add_0_r. reflexivity.
Qed.

(** The outcome and the bucket left behind by a call that passes the
    initialisation stage. *)
Lemma Allow_spec (clientID : string) (now cleanupNow : Z) (rl : RateLimiter) :
  let rl1 := Allow_cleanup now cleanupNow rl in
  match Allow_init clientID now rl1 with
  | None => Allow clientID now cleanupNow rl = (false, rl1)
  | Some rl2 =>
      let c := calculateCurrentTokens rl2 clientID now in
      let res := Allow clientID now cleanupNow rl in
      res.1 = (0 <? c)
      ∧ tokens res.2 !! clientID = Some (if 0 <? c then c - 1 else c)
      ∧ lastUpdate res.2 !! clientID = Some now
      ∧ (∀ k, k ≠ clientID →
           tokens res.2 !! k = tokens rl2 !! k
           ∧ lastUpdate res.2 !! k = lastUpdate rl2 !! k)
      ∧ same_config res.2 rl2
      ∧ lastCleanup res.2 = lastCleanup rl2
  end.
Proof.
  cbn zeta. unfold Allow.
  destruct (Allow_init clientID now (Allow_cleanup now cleanupNow rl)) as [rl2|];
    [|reflexivity].
  assert (Ht : tokens_at (Allow_refill clientID now rl2) clientID
               = calculateCurrentTokens rl2 clientID now).
  { unfold tokens_at, Allow_refill. cbn. rewrite lookup_insert_eq. reflexivity. }
  rewrite Ht.
  destruct (0 <? calculateCurrentTokens rl2 clientID now); cbn;
    rewrite ?lookup_insert_eq; repeat split; try reflexivity;
    rewrite ?lookup_insert_ne by done; reflexivity.
Qed.

(** The initialisation stage touches the bucket of [clientID] only. *)
Lemma Allow_init_spec (clientID : string) (now : Z) (rl rl2 : RateLimiter) :
  Allow_init clientID now rl = Some rl2 →
  same_config rl2 rl
  ∧ lastCleanup rl2 = lastCleanup rl
  ∧ (∀ k, k ≠ clientID →
       tokens rl2 !! k = tokens rl !! k ∧ lastUpdate rl2 !! k = lastUpdate rl !! k).
Proof.
  unfold Allow_init. intros H.
  destruct (tokens rl !! clientID);
    [destruct (inactiveThreshold rl <? _) | destruct (requestsPerSecond rl =? 0)];
    inversion H; subst; cbn; repeat split; try reflexivity;
    rewrite lookup_insert_ne by done; reflexivity.
Qed.

Lemma Allow_same_config (clientID : string) (now cleanupNow : Z) (rl : RateLimiter) :
  same_config (Allow clientID now cleanupNow rl).2 rl.
Proof.
  pose proof (Allow_spec clientID now cleanupNow rl) as Hs. cbn zeta in Hs.
  destruct (Allow_cleanup_spec now cleanupNow rl) as (Hc & _).
  destruct (Allow_init clientID now _) as [rl2|] eqn:Hi.
  - destruct Hs as (_ & _ & _ & _ & Hc2 & _).
    destruct (Allow_init_spec _ _ _ _ Hi) as (Hc1 & _).
    eauto using same_config_trans.
  - rewrite Hs. exact Hc.
Qed.

Lemma Allow_calls_cons (call : string * Z * Z) (rest : list (string * Z * Z))
    (rl : RateLimiter) :
  let res := Allow call.1.1 call.1.2 call.2 rl in
  Allow_calls (call :: rest) rl
  = (res.1 :: (Allow_calls rest res.2).1, (Allow_calls rest res.2).2).
Proof.
  destruct call as [[clientID now] cleanupNow]. cbn.
  destruct (Allow clientID now cleanupNow rl) as [ok rl1]. cbn.
  destruct (Allow_calls rest rl1). reflexivity.
Qed.

(** A sweep reading the instant of a client's last update does not remove
    that client when the inactivity threshold is not negative. *)
Lemma not_stale_recent (rl : RateLimiter) (clientID : string) (t cleanupNow : Z) :
  0 ≤ inactiveThreshold rl ≤ max_int →
  lastUpdate rl !! clientID = Some t →
  cleanupNow - t ≤ inactiveThreshold rl →
  stale rl cleanupNow clientID = false.
Proof.
  intros Hthr Hl Hgap. unfold stale, time.Before, time.Add. rewrite Hl.
  rewrite wrap_int_id by (unfold min_int, max_int in *; lia).
  apply Z.ltb_ge. lia.
Qed.

(** ** Burst behaviour (C1) *)

(** A call at the very instant of the bucket's last update: the stored
    count decides, and one token is consumed when there is one. *)
Lemma Allow_same_instant (rl : RateLimiter) (clientID : string) (t n : Z) :
  0 ≤ inactiveThreshold rl ≤ max_int →
  0 ≤ n ≤ burstSize rl → burstSize rl ≤ max_int →
  tokens rl !! clientID = Some n →
  lastUpdate rl !! clientID = Some t →
  let res := Allow clientID t t rl in
  res.1 = (0 <? n)
  ∧ tokens res.2 !! clientID = Some (if 0 <? n then n - 1 else n)
  ∧ lastUpdate res.2 !! clientID = Some t.
Proof.
  intros Hthr Hn Hb Ht Hl.
  pose proof (Allow_spec clientID t t rl) as Hs. cbn zeta in Hs.
  destruct (Allow_cleanup_spec t t rl) as (Hc & Htk & Hlu & _).
  assert (Hsw : swept rl t t clientID = false).
  { unfold swept. rewrite (not_stale_recent rl clientID t t) by (done || lia).
    apply andb_false_r. }
  specialize (Htk clientID). specialize (Hlu clientID).
  rewrite Hsw in Htk, Hlu. rewrite Ht in Htk. rewrite Hl in Hlu.
  destruct Hc as (_ & Hcb & _ & Hct).
  unfold Allow_init in Hs. rewrite Htk in Hs.
  unfold lastUpdate_at in Hs. rewrite Hlu in Hs. cbn [default] in Hs.
  rewrite Sub_self, Hct in Hs.
  replace (inactiveThreshold rl <? 0) with false in Hs by (symmetry; apply Z.ltb_ge; lia).
  rewrite (calculateCurrentTokens_now _ _ _ n Htk Hlu) in Hs.
  rewrite wrap_int_id in Hs by (unfold min_int, max_int in *; lia).
  rewrite clamp_tokens_min, Hcb, Z.min_r in Hs by lia.
  cbn zeta. destruct Hs as (H1 & H2 & H3 & _). done.
Qed.

(** The first call for a client without a bucket, with a non-zero rate:
    the bucket starts full. *)
Lemma Allow_unseen (rl : RateLimiter) (clientID : string) (now cleanupNow : Z) :
  requestsPerSecond rl ≠ 0 →
  0 ≤ burstSize rl ≤ max_int →
  tokens rl !! clientID = None →
  let res := Allow clientID now cleanupNow rl in
  res.1 = (0 <? burstSize rl)
  ∧ tokens res.2 !! clientID
    = Some (if 0 <? burstSize rl then burstSize rl - 1 else burstSize rl)
  ∧ lastUpdate res.2 !! clientID = Some now.
Proof.
  intros Hr Hb Ht.
  pose proof (Allow_spec clientID now cleanupNow rl) as Hs. cbn zeta in Hs.
  pose proof (Allow_cleanup_absent now cleanupNow rl clientID Ht) as Habs.
  destruct (Allow_cleanup_spec now cleanupNow rl) as ((Hcr & Hcb & _) & _).
  unfold Allow_init in Hs. rewrite Habs, Hcr in Hs.
  destruct (Z.eqb_spec (requestsPerSecond rl) 0) as [|_]; [done|].
  rewrite (calculateCurrentTokens_now _ _ _ (burstSize rl)) in Hs
    by (cbn; rewrite ?lookup_insert_eq; congruence).
  rewrite wrap_int_id in Hs by (unfold min_int, max_int in *; lia).
  rewrite clamp_tokens_min in Hs by (cbn; lia).
  cbn [burstSize set_lastUpdate set_tokens] in Hs.
  rewrite Hcb, Z.min_id in Hs.
  cbn zeta. destruct Hs as (H1 & H2 & H3 & _). done.
Qed.

(** With [m] tokens in the bucket and the clock standing still, the next
    [m] calls are admitted and the one after is rejected. *)
Lemma drain_at_instant (clientID : string) (t : Z) (m : nat) :
  ∀ rl : RateLimiter,
    0 ≤ inactiveThreshold rl ≤ max_int →
    Z.of_nat m ≤ burstSize rl → burstSize rl ≤ max_int →
    tokens rl !! clientID = Some (Z.of_nat m) →
    lastUpdate rl !! clientID = Some t →
    (Allow_calls (repeat (clientID, t, t) (S m)) rl).1 = repeat true m ++ [false].
Proof.
  induction m as [|m IH]; intros rl Hthr Hm Hb Ht Hl;
    destruct (Allow_same_instant rl clientID t _ Hthr
                (conj (Nat2Z.is_nonneg _) Hm) Hb Ht Hl) as (H1 & H2 & H3);
    destruct (Allow_same_config clientID t t rl) as (_ & Hcb & _ & Hct);
    cbn [repeat]; rewrite Allow_calls_cons; cbn [fst snd].
  - rewrite H1. reflexivity.
  - rewrite H1. replace (0 <? Z.of_nat (S m)) with true in *
      by (symmetry; apply Z.ltb_lt; lia).
    cbn [repeat app]. f_equal.
    apply IH; rewrite ?Hcb, ?Hct; try done; try lia.
    rewrite H2. f_equal. lia.
Qed.

(** C1, as amended: for every configuration with a non-zero refill rate and
    burst capacity [B >= 0] (and an inactivity threshold that is not
    negative), a key with no bucket is admitted on exactly its first [B]
    consecutive calls when no time elapses between the calls, and the
    [(B+1)]-th call is rejected. *)
Theorem burst_admitted_then_rejected (rl : RateLimiter) (clientID : string) (t : Z) :
  requestsPerSecond rl ≠ 0 →
  0 ≤ burstSize rl ≤ max_int →
  0 ≤ inactiveThreshold rl ≤ max_int →
  tokens rl !! clientID = None →
  (Allow_calls (repeat (clientID, t, t) (S (Z.to_nat (burstSize rl)))) rl).1
  = repeat true (Z.to_nat (burstSize rl)) ++ [false].
Proof.
  intros Hr Hb Hthr Ht.
  destruct (Allow_unseen rl clientID t t Hr Hb Ht) as (H1 & H2 & H3).
  destruct (Allow_same_config clientID t t rl) as (_ & Hcb & _ & Hct).
  cbn [repeat]. rewrite Allow_calls_cons. cbn [fst snd]. rewrite H1.
  destruct (Z.ltb_spec 0 (burstSize rl)) as [Hpos|Hzero].
  - replace (Z.to_nat (burstSize rl)) with (S (Z.to_nat (burstSize rl - 1))) by lia.
    cbn [repeat app]. f_equal.
    apply drain_at_instant; rewrite ?Hcb, ?Hct; try done; try lia.
    rewrite H2. f_equal. lia.
  - replace (burstSize rl) with 0 by lia. reflexivity.
Qed.

(** The theorem at work: rate 1, burst 2, as in the repository's first
    [Allow] test. *)
Lemma burst_admitted_then_rejected_witness :
  (Allow_calls (repeat ("test-client-1"%string, startup, startup) 3)
     (NewRateLimiter 1 2 time.Second time.Minute (5 * time.Minute))).1
  = [true; true; false].
Proof.
  apply (burst_admitted_then_rejected
           (NewRateLimiter 1 2 time.Second time.Minute (5 * time.Minute))
           "test-client-1" startup).
  - vm_compute. discriminate.
  - vm_compute. split; discriminate.
  - vm_compute. split; discriminate.
  - reflexivity.
Defined.

(** C1 as stated fails when the refill rate is 0: with burst 1 the first
    call for a fresh key is rejected (the repository's "Zero rate limiting"
    test expects exactly this). *)
Lemma zero_rate_fresh_key_not_admitted :
  let rl := NewRateLimiter 0 1 time.Second time.Minute (5 * time.Minute) in
  tokens rl !! "test-client-4" = None
  ∧ (Allow_calls (repeat ("test-client-4"%string, startup, startup)
                    (S (Z.to_nat (burstSize rl)))) rl).1
    = [false; false]
  ∧ (Allow_calls (repeat ("test-client-4"%string, startup, startup)
                    (S (Z.to_nat (burstSize rl)))) rl).1
    ≠ repeat true (Z.to_nat (burstSize rl)) ++ [false].
Proof. vm_compute. repeat split; discriminate. Qed.

(** ** Zero refill rate (C2) *)

Lemma Allow_zero_rate_unseen (rl : RateLimiter) (clientID : string) (now cleanupNow : Z) :
  requestsPerSecond rl = 0 →
  tokens rl !! clientID = None →
  Allow clientID now cleanupNow rl = (false, Allow_cleanup now cleanupNow rl).
Proof.
  intros Hr Ht.
  pose proof (Allow_spec clientID now cleanupNow rl) as Hs. cbn zeta in Hs.
  destruct (Allow_cleanup_spec now cleanupNow rl) as ((Hcr & _) & _).
  unfold Allow_init in Hs.
  rewrite (Allow_cleanup_absent now cleanupNow rl clientID Ht), Hcr, Hr in Hs.
  exact Hs.
Qed.

Lemma Allow_cleanup_empty (now cleanupNow : Z) (rl : RateLimiter) :
  tokens rl = ∅ → tokens (Allow_cleanup now cleanupNow rl) = ∅.
Proof.
  intros He. apply map_eq. intros k. rewrite lookup_empty.
  apply Allow_cleanup_absent. rewrite He. apply lookup_empty.
Qed.

(** C2: with [refillRatePerSecond = 0], a call for a key without a bucket
    returns false and leaves the key without a bucket; so from a store that
    tracks no client (as [NewRateLimiter] builds it) every call of every
    run, first or subsequent, for any key, returns false and no bucket is
    ever created. *)
Theorem zero_rate_denies_every_call (rl : RateLimiter) :
  requestsPerSecond rl = 0 →
  (∀ clientID now cleanupNow,
     tokens rl !! clientID = None →
     (Allow clientID now cleanupNow rl).1 = false
     ∧ tokens (Allow clientID now cleanupNow rl).2 !! clientID = None
     ∧ (lastUpdate rl !! clientID = None →
        lastUpdate (Allow clientID now cleanupNow rl).2 !! clientID = None))
  ∧ (tokens rl = ∅ →
     ∀ calls,
       Forall (λ ok, ok = false) (Allow_calls calls rl).1
       ∧ tokens (Allow_calls calls rl).2 = ∅).
Proof.
  intros Hr. split.
  - intros clientID now cleanupNow Ht.
    rewrite (Allow_zero_rate_unseen rl clientID now cleanupNow Hr Ht). cbn [fst snd].
    split; [reflexivity|]. split; [apply Allow_cleanup_absent; exact Ht|].
    intros Hl. destruct (Allow_cleanup_spec now cleanupNow rl) as (_ & _ & Hlu & _).
    rewrite Hlu, Hl. destruct (swept _ _ _ _); reflexivity.
  - intros He calls. revert rl Hr He.
    induction calls as [|[[clientID now] cleanupNow] calls IH]; intros rl Hr He.
    + cbn. split; [constructor | exact He].
    + rewrite Allow_calls_cons. cbn [fst snd].
      assert (Ht : tokens rl !! clientID = None) by (rewrite He; apply lookup_empty).
      rewrite (Allow_zero_rate_unseen rl clientID now cleanupNow Hr Ht). cbn [fst snd].
      destruct (Allow_cleanup_spec now cleanupNow rl) as ((Hcr & _) & _).
      destruct (IH (Allow_cleanup now cleanupNow rl)) as (IH1 & IH2);
        [congruence | apply Allow_cleanup_empty; exact He |].
      split; [constructor; [reflexivity | exact IH1] | exact IH2].
Qed.

(** The theorem at work on the repository's zero-rate test: rate 0, burst
    5, five calls. *)
Lemma zero_rate_denies_every_call_witness :
  let rl := NewRateLimiter 0 5 time.Second time.Minute (5 * time.Minute) in
  Forall (λ ok, ok = false)
    (Allow_calls (repeat ("test-client"%string, startup, startup) 5) rl).1
  ∧ tokens
      (Allow_calls (repeat ("test-client"%string, startup, startup) 5) rl).2
    = ∅.
Proof.
  intros rl.
  exact (proj2 (zero_rate_denies_every_call rl eq_refl) eq_refl
           (repeat ("test-client"%string, startup, startup) 5)).
Defined.

(** ** The capacity invariant (C3) *)

Lemma Allow_cleanup_in_range (now cleanupNow : Z) (rl : RateLimiter) :
  tokens_in_range rl → tokens_in_range (Allow_cleanup now cleanupNow rl).
Proof.
  intros Hinv k n. destruct (Allow_cleanup_spec now cleanupNow rl) as ((_ & -> & _) & Ht & _).
  rewrite Ht. destruct (swept _ _ _ _); [discriminate | apply Hinv].
Qed.

(** The bucket written by a call is in range whatever it held before. *)
Lemma Allow_bucket_in_range (clientID : string) (now cleanupNow : Z)
    (rl : RateLimiter) (n : Z) :
  0 ≤ burstSize rl →
  tokens (Allow clientID now cleanupNow rl).2 !! clientID = Some n →
  0 ≤ n ≤ burstSize rl.
Proof.
  intros Hb Hn.
  pose proof (Allow_spec clientID now cleanupNow rl) as Hs. cbn zeta in Hs.
  destruct (Allow_cleanup_spec now cleanupNow rl) as ((_ & Hcb & _) & _).
  destruct (Allow_init clientID now _) as [rl2|] eqn:Hi.
  - destruct Hs as (_ & H2 & _).
    destruct (Allow_init_spec _ _ _ _ Hi) as ((_ & Hcb2 & _) & _).
    pose proof (calculateCurrentTokens_range rl2 clientID now) as Hc.
    rewrite Hcb2, Hcb in Hc. specialize (Hc Hb).
    rewrite H2 in Hn. inversion Hn; subst. Z_cases; lia.
  - rewrite Hs in Hn. cbn [snd] in Hn. unfold Allow_init in Hi.
    destruct (tokens (Allow_cleanup now cleanupNow rl) !! clientID);
      [destruct (_ <? _) in Hi |]; discriminate.
Qed.

Lemma Allow_in_range (clientID : string) (now cleanupNow : Z) (rl : RateLimiter) :
  0 ≤ burstSize rl →
  tokens_in_range rl → tokens_in_range (Allow clientID now cleanupNow rl).2.
Proof.
  intros Hb Hinv k n Hn.
  destruct (Allow_same_config clientID now cleanupNow rl) as (_ & Hcb & _).
  rewrite Hcb.
  destruct (decide (k = clientID)) as [->|Hne];
    [eapply Allow_bucket_in_range; eassumption|].
  pose proof (Allow_cleanup_in_range now cleanupNow rl Hinv) as Hinv1.
  destruct (Allow_cleanup_spec now cleanupNow rl) as ((_ & Hcb1 & _) & _).
  pose proof (Allow_spec clientID now cleanupNow rl) as Hs. cbn zeta in Hs.
  destruct (Allow_init clientID now _) as [rl2|] eqn:Hi.
  - destruct Hs as (_ & _ & _ & Hk & _).
    destruct (Allow_init_spec _ _ _ _ Hi) as (_ & _ & Hk2).
    destruct (Hk k Hne) as [Hk1 _]. destruct (Hk2 k Hne) as [Hk3 _].
    rewrite Hk1, Hk3 in Hn. rewrite <- Hcb1. eapply Hinv1; eassumption.
  - rewrite Hs in Hn. cbn [snd] in Hn. rewrite <- Hcb1. eapply Hinv1; eassumption.
Qed.

(** C3: with [burstCapacity >= 0], every recomputation of a token count
    yields a value between 0 and [burstCapacity]: the count
    [calculateCurrentTokens] returns, the would-be count [GetMapState]
    reports, and the count [Allow] stores for the client it serves; and
    stored buckets that are all in range stay in range through every run of
    [Allow] calls and every eviction sweep. *)
Theorem token_count_within_capacity (rl : RateLimiter) :
  0 ≤ burstSize rl →
  (∀ clientID now,
     0 ≤ calculateCurrentTokens rl clientID now ≤ burstSize rl)
  ∧ (∀ now clientID view,
       clients (GetMapState rl now) !! clientID = Some view →
       0 ≤ client_tokens view ≤ burstSize rl)
  ∧ (∀ clientID now cleanupNow n,
       tokens (Allow clientID now cleanupNow rl).2 !! clientID = Some n →
       0 ≤ n ≤ burstSize rl)
  ∧ (tokens_in_range rl →
     (∀ calls, tokens_in_range (Allow_calls calls rl).2)
     ∧ (∀ now, tokens_in_range (cleanup rl now))).
Proof.
  intros Hb. split; [|split; [|split; [|intros Hinv; split]]].
  - intros clientID now. apply calculateCurrentTokens_range; exact Hb.
  - intros now clientID view. unfold GetMapState. cbn [clients].
    rewrite map_lookup_imap.
    destruct (tokens rl !! clientID); cbn; [|discriminate].
    destruct (lastUpdate rl !! clientID); cbn; [|discriminate].
    intros [= <-]. cbn. apply calculateCurrentTokens_range; exact Hb.
  - intros clientID now cleanupNow n. apply Allow_bucket_in_range; exact Hb.
  - intros calls. revert rl Hb Hinv.
    induction calls as [|call calls IH]; intros rl Hb Hinv; [exact Hinv|].
    rewrite Allow_calls_cons. cbn [snd].
    destruct (Allow_same_config call.1.1 call.1.2 call.2 rl) as (_ & Hcb & _).
    apply IH; [rewrite Hcb; exact Hb | apply Allow_in_range; assumption].
  - intros now k n. destruct (cleanup_spec rl now) as (tk & lu & -> & Htk & _).
    cbn. rewrite Htk. destruct (stale rl now k); [discriminate | apply Hinv].
Qed.

(** The theorem at work: burst 5, a bucket left idle for 40 seconds at rate
    10 is recomputed to the capacity, not beyond. *)
Lemma token_count_within_capacity_witness :
  let rl := (Allow "client1" startup startup
               (NewRateLimiter 10 5 time.Second time.Minute time.Minute)).2 in
  0 ≤ calculateCurrentTokens rl "client1" (startup + 40 * time.Second) ≤ burstSize rl.
Proof.
  intros rl.
  exact (proj1 (token_count_within_capacity rl ltac:(vm_compute; discriminate))
           "client1"%string (startup + 40 * time.Second)).
Defined.

(** ** One bucket at a time *)

Lemma Allow_unfold (clientID : string) (now cleanupNow : Z) (rl : RateLimiter) :
  Allow clientID now cleanupNow rl
  = Allow_serve clientID now (Allow_cleanup now cleanupNow rl).
Proof. reflexivity. Qed.

Lemma calculateCurrentTokens_agree (k : string) (now : Z) (rl1 rl2 : RateLimiter) :
  agree_on k rl1 rl2 →
  calculateCurrentTokens rl1 k now = calculateCurrentTokens rl2 k now.
Proof.
  intros ((Hr & Hb & _ & _) & Ht & Hl).
  unfold calculateCurrentTokens, tokens_at, tokensToAdd, clamp_tokens.
  rewrite Hr, Hb, Ht, Hl. reflexivity.
Qed.

Lemma Allow_init_agree (k : string) (now : Z) (rl1 rl2 : RateLimiter) :
  agree_on k rl1 rl2 →
  match Allow_init k now rl1, Allow_init k now rl2 with
  | Some r1, Some r2 => agree_on k r1 r2
  | None, None => True
  | _, _ => False
  end.
Proof.
  intros Hag. pose proof Hag as ((Hr & Hb & Hi & Hthr) & Ht & Hl).
  assert (Hfresh : agree_on k
            (set_lastUpdate (set_tokens rl1 k (burstSize rl1)) k now)
            (set_lastUpdate (set_tokens rl2 k (burstSize rl2)) k now)).
  { repeat split; cbn; rewrite ?lookup_insert_eq; congruence. }
  unfold Allow_init, lastUpdate_at. rewrite Ht, Hl, Hr, Hthr.
  destruct (tokens rl2 !! k);
    [destruct (inactiveThreshold rl2 <? _) | destruct (requestsPerSecond rl2 =? 0)];
    done.
Qed.

(** The part of [Allow] after the cleanup reads and writes the bucket of
    its client only. *)
Lemma Allow_serve_agree (k : string) (now : Z) (rl1 rl2 : RateLimiter) :
  agree_on k rl1 rl2 →
  (Allow_serve k now rl1).1 = (Allow_serve k now rl2).1
  ∧ agree_on k (Allow_serve k now rl1).2 (Allow_serve k now rl2).2.
Proof.
  intros Hag. pose proof (Allow_init_agree k now rl1 rl2 Hag) as Hi.
  unfold Allow_serve.
  destruct (Allow_init k now rl1) as [r1|], (Allow_init k now rl2) as [r2|];
    try done.
  cbn zeta. unfold tokens_at, Allow_refill. cbn [tokens set_lastUpdate set_tokens].
  rewrite !lookup_insert_eq. cbn [default from_option id].
  rewrite (calculateCurrentTokens_agree k now r1 r2 Hi).
  destruct Hi as (Hc & _ & _).
  destruct (0 <? calculateCurrentTokens r2 k now); cbn [fst snd];
    (split; [reflexivity|]); (split; [exact Hc|]); cbn;
    rewrite ?lookup_insert_eq; done.
Qed.

(** A call for [clientID] leaves every other bucket as the cleanup left
    it. *)
Lemma Allow_frame (clientID k : string) (now cleanupNow : Z) (rl : RateLimiter) :
  k ≠ clientID →
  let rl1 := Allow_cleanup now cleanupNow rl in
  let res := Allow clientID now cleanupNow rl in
  agree_on k res.2 rl1 ∧ lastCleanup res.2 = lastCleanup rl1.
Proof.
  intros Hne. cbn zeta.
  pose proof (Allow_spec clientID now cleanupNow rl) as Hs. cbn zeta in Hs.
  destruct (Allow_init clientID now _) as [rl2|] eqn:Hi.
  - destruct Hs as (_ & _ & _ & Hk & Hc & Hlc).
    destruct (Allow_init_spec _ _ _ _ Hi) as (Hc2 & Hlc2 & Hk2).
    destruct (Hk k Hne) as [Ha Hb]. destruct (Hk2 k Hne) as [Ha2 Hb2].
    repeat split; try congruence; destruct Hc as (?&?&?&?), Hc2 as (?&?&?&?);
      congruence.
  - rewrite Hs. cbn [snd]. repeat split; reflexivity.
Qed.

(** Whether a sweep runs and what it does to the bucket of [k] depends on
    the configuration, on [lastCleanup] and on that bucket only. *)
Lemma Allow_cleanup_agree (k : string) (now cleanupNow : Z) (rl1 rl2 : RateLimiter) :
  agree_on k rl1 rl2 → lastCleanup rl1 = lastCleanup rl2 →
  agree_on k (Allow_cleanup now cleanupNow rl1) (Allow_cleanup now cleanupNow rl2).
Proof.
  intros (Hc & Ht & Hl) Hlc.
  destruct (Allow_cleanup_spec now cleanupNow rl1) as (Hc1 & Ht1 & Hl1 & _).
  destruct (Allow_cleanup_spec now cleanupNow rl2) as (Hc2 & Ht2 & Hl2 & _).
  assert (Hsw : swept rl1 now cleanupNow k = swept rl2 now cleanupNow k).
  { unfold swept, stale. destruct Hc as (_ & _ & -> & ->). rewrite Hlc, Hl.
    reflexivity. }
  repeat split.
  - destruct Hc as (?&?&?&?), Hc1 as (?&?&?&?), Hc2 as (?&?&?&?). congruence.
  - destruct Hc as (?&?&?&?), Hc1 as (?&?&?&?), Hc2 as (?&?&?&?). congruence.
  - destruct Hc as (?&?&?&?), Hc1 as (?&?&?&?), Hc2 as (?&?&?&?). congruence.
  - destruct Hc as (?&?&?&?), Hc1 as (?&?&?&?), Hc2 as (?&?&?&?). congruence.
  - rewrite Ht1, Ht2, Hsw, Ht. reflexivity.
  - rewrite Hl1, Hl2, Hsw, Hl. reflexivity.
Qed.

(** Running the periodic cleanup a second time at the same instant leaves
    every bucket as the first run left it. *)
Lemma Allow_cleanup_twice (k : string) (t : Z) (rl : RateLimiter) :
  agree_on k (Allow_cleanup t t (Allow_cleanup t t rl)) (Allow_cleanup t t rl).
Proof.
  destruct (Allow_cleanup_spec t t (Allow_cleanup t t rl)) as (Hc2 & Ht2 & Hl2 & _).
  destruct (Allow_cleanup_spec t t rl) as (Hc1 & Ht1 & Hl1 & Hlc1).
  assert (Hsw : swept (Allow_cleanup t t rl) t t k = false).
  { unfold swept. destruct Hc1 as (_ & _ & -> & Hthr).
    rewrite Hlc1. unfold swept in Hl1.
    destruct (cleanupInterval rl <? time.Sub t (lastCleanup rl)) eqn:Hrun.
    - cbn [andb] in Hl1. unfold stale in *. rewrite Hl1 by exact k. rewrite Hthr.
      specialize (Hl1 k).
      destruct (lastUpdate rl !! k) as [u|]; [|apply andb_false_r].
      destruct (time.Before u _) eqn:Hbefore; [apply andb_false_r|].
      rewrite Hbefore. apply andb_false_r.
    - rewrite Hrun. reflexivity. }
  split; [exact Hc2|]. rewrite Ht2, Hl2, Hsw. done.
Qed.

(** ** Independence of distinct clients (C8) *)

Lemma Allow_other_keeps_view (clientA clientB : string) (t : Z) (rl : RateLimiter) :
  clientA ≠ clientB →
  agree_on clientB (Allow_cleanup t t (Allow clientA t t rl).2) (Allow_cleanup t t rl).
Proof.
  intros Hne.
  destruct (Allow_frame clientA clientB t t rl (not_eq_sym Hne)) as [Hag Hlc].
  pose proof (Allow_cleanup_agree clientB t t _ _ Hag Hlc) as H1.
  pose proof (Allow_cleanup_twice clientB t rl) as H2.
  destruct H1 as (Hc1 & Ht1 & Hl1), H2 as (Hc2 & Ht2 & Hl2).
  repeat split; try congruence;
    destruct Hc1 as (?&?&?&?), Hc2 as (?&?&?&?); congruence.
Qed.

(** C8: for two distinct keys A and B in the same store at the same moment,
    any number of [Allow] calls for A, including calls that exhaust A's
    bucket, leaves the outcome of an [Allow] call for B what it is in the
    run where A's calls never happened. *)
Theorem other_client_does_not_change_outcome
    (rl : RateLimiter) (clientA clientB : string) (t : Z) (n : nat) :
  clientA ≠ clientB →
  (Allow clientB t t (Allow_calls (repeat (clientA, t, t) n) rl).2).1
  = (Allow clientB t t rl).1.
Proof.
  intros Hne.
  assert (Hview : agree_on clientB
            (Allow_cleanup t t (Allow_calls (repeat (clientA, t, t) n) rl).2)
            (Allow_cleanup t t rl)).
  { revert rl. induction n as [|n IH]; intros rl.
    - cbn. split; [apply same_config_refl | done].
    - cbn [repeat]. rewrite Allow_calls_cons. cbn [fst snd].
      destruct (IH (Allow clientA t t rl).2) as (Hc1 & Ht1 & Hl1).
      destruct (Allow_other_keeps_view clientA clientB t rl Hne) as (Hc2 & Ht2 & Hl2).
      repeat split; try congruence;
        destruct Hc1 as (?&?&?&?), Hc2 as (?&?&?&?); congruence. }
  rewrite !Allow_unfold.
  apply (Allow_serve_agree clientB t _ _ Hview).
Qed.

(** The theorem at work: rate 1, burst 1; client1 is exhausted by three
    calls, client2 is still admitted. *)
Lemma other_client_does_not_change_outcome_witness :
  let rl := NewRateLimiter 1 1 time.Second time.Minute (5 * time.Minute) in
  (Allow "client2" startup startup
     (Allow_calls (repeat ("client1"%string, startup, startup) 3) rl).2).1
  = (Allow "client2" startup startup rl).1.
Proof.
  intros rl.
  apply (other_client_does_not_change_outcome rl "client1" "client2"
           startup 3).
  discriminate.
Defined.

(** ** Idle eviction (C5) *)

Lemma cleanup_same_config (rl : RateLimiter) (now : Z) :
  same_config (cleanup rl now) rl.
Proof. destruct (cleanup_spec rl now) as (tk & lu & -> & _). done. Qed.

Lemma Allow_cleanup_absent_lastUpdate (now cleanupNow : Z) (rl : RateLimiter) (k : string) :
  lastUpdate rl !! k = None →
  lastUpdate (Allow_cleanup now cleanupNow rl) !! k = None.
Proof.
  intros Hk. destruct (Allow_cleanup_spec now cleanupNow rl) as (_ & _ & Hl & _).
  rewrite Hl, Hk. destruct (swept _ _ _ _); reflexivity.
Qed.

(** The bucket [Allow] creates for an unseen client holds the full burst
    when its count is recomputed. *)
Lemma Allow_init_unseen (rl : RateLimiter) (clientID : string) (now : Z) :
  requestsPerSecond rl ≠ 0 →
  0 ≤ burstSize rl ≤ max_int →
  tokens rl !! clientID = None →
  ∃ rl2, Allow_init clientID now rl = Some rl2
         ∧ tokens (Allow_refill clientID now rl2) !! clientID = Some (burstSize rl).
Proof.
  intros Hr Hb Ht. unfold Allow_init. rewrite Ht.
  destruct (Z.eqb_spec (requestsPerSecond rl) 0) as [|_]; [done|].
  eexists; split; [reflexivity|].
  unfold Allow_refill. cbn [tokens set_lastUpdate set_tokens].
  rewrite lookup_insert_eq. f_equal.
  rewrite (calculateCurrentTokens_now _ _ _ (burstSize rl))
    by (cbn; rewrite ?lookup_insert_eq; congruence).
  rewrite wrap_int_id by (unfold min_int, max_int in *; lia).
  rewrite clamp_tokens_min by (cbn; lia). cbn. lia.
Qed.

(** C5: a key whose bucket was last updated more than [inactiveThreshold]
    before an eviction sweep is gone from both maps and from the
    [GetMapState] view once the sweep has run; the next [Allow] call for it
    is denied outright when the refill rate is 0, otherwise it starts from a
    full burst of [burstCapacity] tokens before the decrement; and outcome
    and bucket are those of the same call on any store of the same
    configuration that has never seen the key. *)
Theorem idle_bucket_evicted_then_fresh
    (rl : RateLimiter) (clientID : string) (t sweepNow : Z) :
  0 ≤ burstSize rl ≤ max_int →
  min_int < inactiveThreshold rl ≤ max_int →
  lastUpdate rl !! clientID = Some t →
  inactiveThreshold rl < sweepNow - t →
  let evicted := cleanup rl sweepNow in
  (tokens evicted !! clientID = None ∧ lastUpdate evicted !! clientID = None)
  ∧ (∀ now, clients (GetMapState evicted now) !! clientID = None)
  ∧ (∀ now cleanupNow,
       let res := Allow clientID now cleanupNow evicted in
       (requestsPerSecond rl = 0 →
          res.1 = false ∧ tokens res.2 !! clientID = None)
       ∧ (requestsPerSecond rl ≠ 0 →
            (∃ rl2,
               Allow_init clientID now (Allow_cleanup now cleanupNow evicted) = Some rl2
               ∧ tokens (Allow_refill clientID now rl2) !! clientID
                 = Some (burstSize rl))
            ∧ res.1 = (0 <? burstSize rl)
            ∧ tokens res.2 !! clientID
              = Some (if 0 <? burstSize rl then burstSize rl - 1 else burstSize rl)
            ∧ lastUpdate res.2 !! clientID = Some now)
       ∧ (∀ unseen cleanupNow',
            same_config unseen rl →
            tokens unseen !! clientID = None →
            lastUpdate unseen !! clientID = None →
            let res' := Allow clientID now cleanupNow' unseen in
            res.1 = res'.1
            ∧ tokens res.2 !! clientID = tokens res'.2 !! clientID
            ∧ lastUpdate res.2 !! clientID = lastUpdate res'.2 !! clientID)).
Proof.
  intros Hb Hthr Hl Hidle evicted.
  assert (Hstale : stale rl sweepNow clientID = true).
  { unfold stale, time.Before, time.Add. rewrite Hl.
    rewrite wrap_int_id by (unfold min_int, max_int in *; lia).
    apply Z.ltb_lt. lia. }
  pose proof (cleanup_same_config rl sweepNow) as Hcfg. fold evicted in Hcfg.
  assert (Hgone : tokens evicted !! clientID = None
                  ∧ lastUpdate evicted !! clientID = None).
  { subst evicted. destruct (cleanup_spec rl sweepNow) as (tk & lu & -> & Htk & Hlu).
    cbn. rewrite Htk, Hlu, Hstale. done. }
  destruct Hgone as [Hgt Hgl]. destruct Hcfg as (Hcr & Hcb & Hci & Hct).
  split; [done|]. split.
  - intros now. unfold GetMapState. cbn [clients].
    rewrite map_lookup_imap, Hgt. reflexivity.
  - intros now cleanupNow res. split; [|split].
    + intros Hr. subst res.
      rewrite Allow_zero_rate_unseen by congruence. cbn [fst snd].
      split; [reflexivity | apply Allow_cleanup_absent; exact Hgt].
    + intros Hr.
      destruct (Allow_cleanup_spec now cleanupNow evicted) as ((Hcr1 & Hcb1 & _) & _).
      split.
      * rewrite <- Hcb, <- Hcb1. apply Allow_init_unseen.
        -- congruence.
        -- rewrite Hcb1, Hcb. exact Hb.
        -- apply Allow_cleanup_absent; exact Hgt.
      * rewrite <- Hcb. apply Allow_unseen; [congruence | rewrite Hcb; exact Hb | exact Hgt].
    + intros unseen cleanupNow' Hcfg' Hut Hul res'. subst res res'.
      rewrite !Allow_unfold.
      assert (Hag : agree_on clientID (Allow_cleanup now cleanupNow evicted)
                      (Allow_cleanup now cleanupNow' unseen)).
      { destruct (Allow_cleanup_spec now cleanupNow evicted) as (Hc1 & _).
        destruct (Allow_cleanup_spec now cleanupNow' unseen) as (Hc2 & _).
        split.
        - destruct Hc1 as (?&?&?&?), Hc2 as (?&?&?&?), Hcfg' as (?&?&?&?).
          repeat split; congruence.
        - rewrite !Allow_cleanup_absent, !Allow_cleanup_absent_lastUpdate by done.
          done. }
      destruct (Allow_serve_agree clientID now _ _ Hag) as (H1 & _ & H2 & H3).
      done.
Qed.

(** The theorem at work on the repository's cleanup test: threshold one
    minute, client1 last updated two minutes before the sweep. *)
Lemma idle_bucket_evicted_then_fresh_witness :
  let rl := set_lastUpdate
              (set_tokens (NewRateLimiter 10 5 (100 * time.Millisecond)
                             time.Minute time.Minute) "client1" 3)
              "client1" startup in
  tokens (cleanup rl (startup + 2 * time.Minute)) !! "client1" = None
  ∧ lastUpdate (cleanup rl (startup + 2 * time.Minute)) !! "client1" = None.
Proof.
  intros rl.
  refine (proj1 (idle_bucket_evicted_then_fresh rl "client1" startup
                   (startup + 2 * time.Minute) _ _ _ _)).
  - vm_compute. split; discriminate.
  - vm_compute. split; [reflexivity | discriminate].
  - reflexivity.
  - vm_compute. reflexivity.
Defined.

(** ** Reactivation: reset against capped refill (C6) *)

Lemma tokensToAdd_config (rl1 rl2 : RateLimiter) (e : Z) :
  same_config rl1 rl2 → tokensToAdd rl1 e = tokensToAdd rl2 e.
Proof. intros (Hr & _). unfold tokensToAdd. rewrite Hr. reflexivity. Qed.

(** C6, as amended: for a bucket with [0 <= tokens <= burstCapacity] that
    has been idle longer than [inactiveThreshold], the code resets the
    count to [burstCapacity] before the decrement; the capped lazy refill
    [clamp(tokens + floor(elapsedSeconds * rate), 0, burstCapacity)] yields
    the same count exactly when [tokens + floor(elapsedSeconds * rate) >=
    burstCapacity] (so always when [inactiveThreshold * rate >=
    burstCapacity] seconds), and the smaller count
    [tokens + floor(elapsedSeconds * rate)] otherwise. *)
Theorem reset_equals_capped_refill_iff_saturated
    (rl : RateLimiter) (clientID : string) (tk lu now : Z) :
  0 ≤ burstSize rl ≤ max_int →
  0 ≤ requestsPerSecond rl →
  0 ≤ inactiveThreshold rl →
  tokens rl !! clientID = Some tk →
  lastUpdate rl !! clientID = Some lu →
  0 ≤ tk ≤ burstSize rl →
  inactiveThreshold rl < time.Sub now lu →
  let elapsed := time.Sub now lu in
  let refill :=
    spec_capped_refill tk elapsed (requestsPerSecond rl) (burstSize rl) in
  (∃ rl2, Allow_init clientID now rl = Some rl2
          ∧ tokens (Allow_refill clientID now rl2) !! clientID = Some (burstSize rl))
  ∧ (refill = burstSize rl
     ↔ burstSize rl ≤ tk + (elapsed * requestsPerSecond rl) / time.Second)
  ∧ (burstSize rl * time.Second ≤ inactiveThreshold rl * requestsPerSecond rl →
     refill = burstSize rl)
  ∧ (tk + (elapsed * requestsPerSecond rl) / time.Second < burstSize rl →
     refill = tk + (elapsed * requestsPerSecond rl) / time.Second
     ∧ refill < burstSize rl).
Proof.
  intros Hb Hr Hthr Ht Hl Htk Hidle elapsed refill.
  assert (Hq : 0 ≤ (elapsed * requestsPerSecond rl) / time.Second).
  { apply Z.div_pos; [subst elapsed; nia | unfold time.Second; lia]. }
  split; [|split; [|split]].
  - unfold Allow_init, lastUpdate_at. rewrite Ht, Hl. cbn [default from_option id].
    replace (inactiveThreshold rl <? time.Sub now lu) with true
      by (symmetry; apply Z.ltb_lt; exact Hidle).
    eexists; split; [reflexivity|].
    unfold Allow_refill. cbn [tokens set_lastUpdate set_tokens].
    rewrite lookup_insert_eq. f_equal.
    rewrite (calculateCurrentTokens_now _ _ _ (burstSize rl))
      by (cbn; rewrite ?lookup_insert_eq; congruence).
    rewrite wrap_int_id by (unfold min_int, max_int in *; lia).
    rewrite clamp_tokens_min by (cbn; lia). cbn. lia.
  - subst refill. unfold spec_capped_refill. lia.
  - intros Hsat. subst refill. unfold spec_capped_refill.
    assert (burstSize rl ≤ (elapsed * requestsPerSecond rl) / time.Second).
    { apply Z.div_le_lower_bound; [unfold time.Second; lia|]. subst elapsed. nia. }
    lia.
  - intros Hless. subst refill. unfold spec_capped_refill. lia.
Qed.

(** The theorem at work: rate 10, burst 5, threshold one minute; a bucket
    holding 3 tokens, idle for two minutes: the refill over the threshold
    alone fills the bucket, and the capped refill gives the burst, as the
    reset does. *)
Lemma reset_equals_capped_refill_iff_saturated_witness :
  let rl := set_lastUpdate
              (set_tokens (NewRateLimiter 10 5 time.Second time.Minute time.Minute)
                 "client1" 3)
              "client1" startup in
  spec_capped_refill 3 (time.Sub (startup + 2 * time.Minute) startup)
    (requestsPerSecond rl) (burstSize rl)
  = burstSize rl.
Proof.
  intros rl.
  refine (proj1 (proj2 (proj2
            (reset_equals_capped_refill_iff_saturated rl "client1" 3
               startup (startup + 2 * time.Minute) _ _ _ _ _ _ _))) _);
    try reflexivity; vm_compute; try (split; discriminate); discriminate.
Defined.

(** C6 as stated fails when the refill over the idle period does not fill
    the bucket.  Rate 1, burst 1000, threshold five minutes, sweeps every
    ten minutes: a client drains its bucket with 1000 calls and comes back
    301 seconds later.  The code resets the bucket to 1000 tokens before
    the decrement; the capped lazy refill gives 301. *)
Lemma reset_exceeds_capped_refill :
  let rl := (Allow_calls (repeat ("client1"%string, startup, startup) 1000)
               (NewRateLimiter 1 1000 time.Second (10 * time.Minute) (5 * time.Minute))).2 in
  let now := startup + 301 * time.Second in
  let rl1 := Allow_cleanup now now rl in
  tokens rl1 !! "client1" = Some 0
  ∧ lastUpdate rl1 !! "client1" = Some startup
  ∧ inactiveThreshold rl1 < time.Sub now startup
  ∧ spec_capped_refill 0 (time.Sub now startup)
      (requestsPerSecond rl1) (burstSize rl1) = 301
  ∧ match Allow_init "client1" now rl1 with
    | Some rl2 =>
        tokens (Allow_refill "client1" now rl2) !! "client1" = Some 1000
        ∧ tokens (Allow_refill "client1" now rl2) !! "client1"
          ≠ Some (spec_capped_refill 0 (time.Sub now startup)
                    (requestsPerSecond rl1) (burstSize rl1))
    | None => False
    end.
Proof. vm_compute. repeat split; (reflexivity || discriminate). Qed.

(** ** Polling faster than the refill (C7) *)

Lemma clamp_tokens_zero (rl : RateLimiter) : clamp_tokens rl 0 = 0.
Proof.
  unfold clamp_tokens.
  destruct (Z.ltb_spec (burstSize rl) 0); Z_cases; lia.
Qed.

(** A call for a client that has a bucket, survives the sweep and is not
    idle beyond the threshold decides on the count that
    [calculateCurrentTokens] computes from the stored bucket; one token is
    consumed when there is one, and [lastUpdate] becomes [now]. *)
Lemma Allow_live (rl : RateLimiter) (clientID : string) (tk lu now cleanupNow : Z) :
  0 ≤ inactiveThreshold rl ≤ max_int →
  tokens rl !! clientID = Some tk →
  lastUpdate rl !! clientID = Some lu →
  cleanupNow - lu ≤ inactiveThreshold rl →
  time.Sub now lu ≤ inactiveThreshold rl →
  let c := calculateCurrentTokens rl clientID now in
  let res := Allow clientID now cleanupNow rl in
  res.1 = (0 <? c)
  ∧ tokens res.2 !! clientID = Some (if 0 <? c then c - 1 else c)
  ∧ lastUpdate res.2 !! clientID = Some now.
Proof.
  intros Hthr Ht Hl Hsweep Hgap.
  pose proof (Allow_spec clientID now cleanupNow rl) as Hs. cbn zeta in Hs.
  destruct (Allow_cleanup_spec now cleanupNow rl) as (Hc & Htk & Hlu & _).
  assert (Hsw : swept rl now cleanupNow clientID = false).
  { unfold swept. rewrite (not_stale_recent rl clientID lu cleanupNow) by done.
    apply andb_false_r. }
  specialize (Htk clientID). specialize (Hlu clientID).
  rewrite Hsw in Htk, Hlu. rewrite Ht in Htk. rewrite Hl in Hlu.
  unfold Allow_init in Hs. rewrite Htk in Hs.
  unfold lastUpdate_at in Hs. rewrite Hlu in Hs. cbn [default from_option id] in Hs.
  replace (inactiveThreshold (Allow_cleanup now cleanupNow rl) <? time.Sub now lu)
    with false in Hs
    by (symmetry; apply Z.ltb_ge; destruct Hc as (_ & _ & _ & ->); exact Hgap).
  rewrite (calculateCurrentTokens_agree clientID now _ rl) in Hs
    by (split; [exact Hc | split; congruence]).
  cbn zeta. destruct Hs as (H1 & H2 & H3 & _). done.
Qed.

Lemma last_cons_default {A : Type} (l : list A) (x d : A) :
  List.last (x :: l) d = List.last l x.
Proof.
  revert x d. induction l as [|y l IH]; intros x d; [reflexivity|].
  change (List.last (x :: y :: l) d) with (List.last (y :: l) d).
  rewrite !IH. reflexivity.
Qed.

(** C7, as amended: every [Allow] call for an existing key, denied calls
    included, sets that key's [lastUpdate] to the current time (under rate
    0 a key that the call's own sweep evicts is not created again); when
    the call and its sweep both read the clock no more than
    [inactiveThreshold] after the key's [lastUpdate], the call first
    decides on the count [calculateCurrentTokens] computes from the stored
    bucket, the tokens plus [int(elapsedSeconds * rate)] clamped to the
    burst, and stores it, less one when it admits; consequently, for every
    rate [R >= 1], a key at 0 tokens that is polled with strictly less than
    [1/R] seconds, and no more than [inactiveThreshold], between
    consecutive calls, the sweep of each call also reading the clock no
    more than [inactiveThreshold] after the previous call, never accrues a
    token and is never admitted, however long the polling lasts. *)
Theorem frequent_polling_starves (rl : RateLimiter) (clientID : string) :
  0 ≤ inactiveThreshold rl ≤ max_int →
  (∀ now cleanupNow,
     is_Some (tokens rl !! clientID) →
     requestsPerSecond rl ≠ 0 ∨ swept rl now cleanupNow clientID = false →
     lastUpdate (Allow clientID now cleanupNow rl).2 !! clientID = Some now)
  ∧ (∀ tk lu now cleanupNow,
     tokens rl !! clientID = Some tk →
     lastUpdate rl !! clientID = Some lu →
     cleanupNow - lu ≤ inactiveThreshold rl →
     time.Sub now lu ≤ inactiveThreshold rl →
     let c := calculateCurrentTokens rl clientID now in
     let res := Allow clientID now cleanupNow rl in
     c = clamp_tokens rl (wrap_int (tk + tokensToAdd rl (time.Sub now lu)))
     ∧ res.1 = (0 <? c)
     ∧ tokens res.2 !! clientID = Some (if 0 <? c then c - 1 else c)
     ∧ lastUpdate res.2 !! clientID = Some now)
  ∧ (1 ≤ requestsPerSecond rl →
     ∀ t0 polls,
       tokens rl !! clientID = Some 0 →
       lastUpdate rl !! clientID = Some t0 →
       starved (requestsPerSecond rl) (inactiveThreshold rl) t0 polls →
       let res := Allow_calls (map (λ p, (clientID, p.1, p.2)) polls) rl in
       Forall (λ ok, ok = false) res.1
       ∧ tokens res.2 !! clientID = Some 0
       ∧ lastUpdate res.2 !! clientID = Some (List.last (map fst polls) t0)).
Proof.
  intros Hthr. split; [|split].
  - intros now cleanupNow [tk Htk] Hkept.
    pose proof (Allow_spec clientID now cleanupNow rl) as Hs. cbn zeta in Hs.
    destruct (Allow_cleanup_spec now cleanupNow rl) as ((Hcr & _) & Htk1 & _).
    specialize (Htk1 clientID). rewrite Htk in Htk1.
    unfold Allow_init in Hs. rewrite Htk1, Hcr in Hs.
    destruct (swept rl now cleanupNow clientID).
    + destruct Hkept as [Hnz|Hkept]; [|discriminate].
      destruct (Z.eqb_spec (requestsPerSecond rl) 0); [contradiction | apply Hs].
    + destruct (inactiveThreshold _ <? _); apply Hs.
  - intros tk lu now cleanupNow Ht Hl Hsweep Hgap. cbn zeta.
    split; [|apply (Allow_live rl clientID tk lu); assumption].
    unfold calculateCurrentTokens, tokens_at. rewrite Hl, Ht. reflexivity.
  - intros Hr t0 polls. revert rl Hthr Hr t0.
    induction polls as [|[now cleanupNow] polls IH];
      intros rl Hthr Hr t0 Ht Hl Hpolls.
    + cbn. split; [constructor | split; assumption].
    + destruct Hpolls as (Hmono & Hfast & Hgap & Hsweep & Hrest).
      assert (Hsub : time.Sub now t0 = now - t0).
      { apply Sub_exact. unfold min_int, max_int in *. lia. }
      destruct (Allow_live rl clientID 0 t0 now cleanupNow Hthr Ht Hl Hsweep)
        as (H1 & H2 & H3); [rewrite Hsub; exact Hgap|].
      assert (Hc : calculateCurrentTokens rl clientID now = 0).
      { unfold calculateCurrentTokens, tokens_at. rewrite Hl, Ht, Hsub.
        cbn [default from_option id].
        rewrite tokensToAdd_small, Z.add_0_l by lia.
        rewrite (wrap_int_id 0) by (unfold min_int, max_int; lia).
        apply clamp_tokens_zero. }
      rewrite Hc in H1, H2. cbn in H1, H2.
      destruct (Allow_same_config clientID now cleanupNow rl) as (Hcr & _ & _ & Hct).
      cbn [map]. cbn zeta. rewrite Allow_calls_cons. cbn [fst snd].
      destruct (IH (Allow clientID now cleanupNow rl).2) with (t0 := now)
        as (IH1 & IH2 & IH3); rewrite ?Hcr, ?Hct; try assumption.
      split; [constructor; assumption|]. split; [exact IH2|].
      rewrite IH3. f_equal. cbn [map fst]. symmetry. apply last_cons_default.
Qed.

(** The theorem at work: rate 2, default threshold; an exhausted client
    polling every 400 ms is rejected each time. *)
Lemma frequent_polling_starves_witness :
  let rl := (Allow_calls (repeat ("client1"%string, startup, startup) 2)
               (NewRateLimiter 2 2 time.Second time.Minute (5 * time.Minute))).2 in
  let polls := [(startup + 400 * time.Millisecond, startup + 400 * time.Millisecond);
                (startup + 800 * time.Millisecond, startup + 800 * time.Millisecond);
                (startup + 1200 * time.Millisecond, startup + 1200 * time.Millisecond)] in
  Forall (λ ok, ok = false)
    (Allow_calls (map (λ p, ("client1"%string, p.1, p.2)) polls) rl).1.
Proof.
  intros rl polls.
  refine (proj1 (proj2 (proj2 (frequent_polling_starves rl "client1" _)) _
                   startup polls _ _ _)).
  - vm_compute. split; discriminate.
  - vm_compute. discriminate.
  - reflexivity.
  - reflexivity.
  - vm_compute. repeat split; discriminate.
Defined.

(** C7 as stated fails when the polling gap, though shorter than [1/R]
    seconds, exceeds [inactiveThreshold]: rate 1, burst 1, threshold 500 ms.
    The client spends its token and polls again 600 ms later;
    the call finds the bucket idle beyond the threshold, resets it to the
    burst and admits the request. *)
Lemma slow_threshold_poll_admitted :
  let rl := (Allow "client1" startup startup
               (NewRateLimiter 1 1 time.Second time.Minute (500 * time.Millisecond))).2 in
  let now := startup + 600 * time.Millisecond in
  1 ≤ requestsPerSecond rl
  ∧ tokens rl !! "client1" = Some 0
  ∧ lastUpdate rl !! "client1" = Some startup
  ∧ (now - startup) * requestsPerSecond rl < time.Second
  ∧ (Allow "client1" now now rl).1 = true.
Proof. vm_compute. repeat split; (reflexivity || discriminate). Qed.

(** ** Client identity (C9, C10) *)

Lemma eqb_empty_false (s : string) : s ≠ EmptyString → String.eqb s "" = false.
Proof. intros Hs. apply String.eqb_neq. exact Hs. Qed.

Lemma index_none_last_index_none (s substr : string) :
  strings.index_nat s substr = None → strings.last_index_nat s substr = None.
Proof.
  induction s as [|c s IH]; cbn [strings.index_nat strings.last_index_nat].
  - destruct (String.prefix substr ""); done.
  - destruct (String.prefix substr (String c s)); [done|].
    destruct (strings.index_nat s substr); [done|].
    intros _. rewrite IH by reflexivity. reflexivity.
Qed.

(** The rightmost colon of [host:port] is the one before the port. *)
Lemma last_index_host_port (host port : string) :
  strings.index_nat port ":" = None →
  strings.last_index_nat (host +:+ ":" +:+ port) ":" = Some (String.length host).
Proof.
  intros Hport. induction host as [|c host IH].
  - change ("" +:+ ":" +:+ port) with (String ":" port).
    cbn [strings.last_index_nat].
    rewrite (index_none_last_index_none _ _ Hport).
    destruct port; reflexivity.
  - change (String c host +:+ ":" +:+ port) with (String c (host +:+ ":" +:+ port)).
    cbn [strings.last_index_nat String.length]. rewrite IH. reflexivity.
Qed.

Lemma substring_prefix (s rest : string) :
  String.substring 0 (String.length s) (s +:+ rest) = s.
Proof.
  induction s as [|c s IH].
  - destruct rest; reflexivity.
  - change (String c s +:+ rest) with (String c (s +:+ rest)).
    cbn [String.length String.substring]. rewrite IH. reflexivity.
Qed.

Lemma slice_to_of_nat (s : string) (i : nat) :
  strings.slice_to s (Z.of_nat i) = String.substring 0 i s.
Proof. unfold strings.slice_to. rewrite Nat2Z.id. reflexivity. Qed.

(** With no override header the resolver works on the socket address. *)
Lemma GetClientID_socket (r : Request) :
  Header_Get (Header r) "X-Real-IP" = EmptyString →
  Header_Get (Header r) "X-Forwarded-For" = EmptyString →
  GetClientID r =
    let clientID := if String.eqb (RemoteAddr r) "" then "unknown"%string
                    else RemoteAddr r in
    if 0 <? strings.LastIndex clientID ":"
    then strings.slice_to clientID (strings.LastIndex clientID ":")
    else clientID.
Proof. intros Hreal Hfwd. unfold GetClientID. rewrite Hreal, Hfwd. reflexivity. Qed.

Lemma GetClientID_strip_port (r : Request) :
  Header_Get (Header r) "X-Real-IP" = EmptyString →
  Header_Get (Header r) "X-Forwarded-For" = EmptyString →
  RemoteAddr r ≠ EmptyString →
  strings.LastIndex (RemoteAddr r) ":" ≠ 0 →
  GetClientID r = spec_strip_port (RemoteAddr r).
Proof.
  intros Hreal Hfwd Haddr Hcolon.
  rewrite (GetClientID_socket r Hreal Hfwd), (eqb_empty_false _ Haddr). cbn zeta.
  unfold spec_strip_port, strings.LastIndex in *.
  destruct (strings.last_index_nat (RemoteAddr r) ":") as [[|i]|].
  - done.
  - replace (0 <? Z.of_nat (S i)) with true by (symmetry; apply Z.ltb_lt; lia).
    apply slice_to_of_nat.
  - reflexivity.
Qed.

(** C9, as amended: the resolver returns a non-empty real-IP header
    verbatim; else, for a non-empty forwarded-for header that does not
    begin with a comma, the white-space-trimmed text before its first comma
    (the whole trimmed header when it has no comma); else the socket
    address cut at its rightmost colon when that colon is not its first
    byte, the address unchanged when it has no colon, and ["unknown"] when
    the address is empty.  So [host:port1] and [host:port2] resolve to the
    same key [host] for every non-empty host, and 203.0.113.5:1111 and
    203.0.113.5:2222 both resolve to 203.0.113.5. *)
Theorem client_key_resolution (r : Request) :
  let realIP := Header_Get (Header r) "X-Real-IP" in
  let forwardedFor := Header_Get (Header r) "X-Forwarded-For" in
  (realIP ≠ EmptyString → GetClientID r = realIP)
  ∧ (realIP = EmptyString → forwardedFor ≠ EmptyString →
     strings.Index forwardedFor "," ≠ 0 →
     GetClientID r = spec_first_entry forwardedFor)
  ∧ (realIP = EmptyString → forwardedFor = EmptyString →
     (RemoteAddr r ≠ EmptyString →
      strings.LastIndex (RemoteAddr r) ":" ≠ 0 →
      GetClientID r = spec_strip_port (RemoteAddr r))
     ∧ (RemoteAddr r = EmptyString → GetClientID r = "unknown"%string)
     ∧ (∀ host port,
          host ≠ EmptyString →
          strings.index_nat port ":" = None →
          RemoteAddr r = host +:+ ":" +:+ port →
          GetClientID r = host))
  ∧ (strings.Index forwardedFor "," ≠ 0 →
     RemoteAddr r ≠ EmptyString →
     strings.LastIndex (RemoteAddr r) ":" ≠ 0 →
     GetClientID r = spec_resolve r)
  ∧ GetClientID (mkRequest ∅ "203.0.113.5:1111") = "203.0.113.5"%string
  ∧ GetClientID (mkRequest ∅ "203.0.113.5:1111")
    = GetClientID (mkRequest ∅ "203.0.113.5:2222").
Proof.
  intros realIP forwardedFor.
  assert (Hreal : realIP ≠ EmptyString → GetClientID r = realIP).
  { intros Hne. unfold GetClientID. fold realIP.
    rewrite (eqb_empty_false _ Hne). reflexivity. }
  assert (Hfwd : realIP = EmptyString → forwardedFor ≠ EmptyString →
                 strings.Index forwardedFor "," ≠ 0 →
                 GetClientID r = spec_first_entry forwardedFor).
  { intros He Hne Hidx. unfold GetClientID. fold realIP. rewrite He. cbn [String.eqb negb].
    fold forwardedFor. rewrite (eqb_empty_false _ Hne). cbn [negb].
    unfold spec_first_entry, strings.Index in *.
    destruct (strings.index_nat forwardedFor ",") as [[|i]|].
    - done.
    - replace (0 <? Z.of_nat (S i)) with true by (symmetry; apply Z.ltb_lt; lia).
      rewrite slice_to_of_nat. reflexivity.
    - reflexivity. }
  assert (Hhost : realIP = EmptyString → forwardedFor = EmptyString →
                  ∀ host port, host ≠ EmptyString →
                    strings.index_nat port ":" = None →
                    RemoteAddr r = host +:+ ":" +:+ port → GetClientID r = host).
  { intros He Hfe host port Hhost Hport Haddr.
    pose proof (last_index_host_port host port Hport) as Hlast.
    rewrite GetClientID_strip_port; try assumption.
    - unfold spec_strip_port. rewrite Haddr, Hlast. apply substring_prefix.
    - rewrite Haddr. destruct host; [done | discriminate].
    - unfold strings.LastIndex. rewrite Haddr, Hlast.
      destruct host; [done | cbn; lia]. }
  split; [exact Hreal|]. split; [exact Hfwd|]. split; [|split].
  - intros He Hfe. split; [|split].
    + apply GetClientID_strip_port; assumption.
    + intros Haddr. rewrite (GetClientID_socket r He Hfe), Haddr. reflexivity.
    + apply Hhost; assumption.
  - intros Hidx Haddr Hcolon. unfold spec_resolve. fold realIP forwardedFor.
    destruct (decide (realIP = EmptyString)) as [He|Hne].
    + rewrite He. cbn [String.eqb negb].
      destruct (decide (forwardedFor = EmptyString)) as [Hfe|Hfne].
      * rewrite Hfe. cbn [String.eqb negb]. apply GetClientID_strip_port; assumption.
      * rewrite (eqb_empty_false _ Hfne). cbn [negb]. apply Hfwd; assumption.
    + rewrite (eqb_empty_false _ Hne). cbn [negb]. apply Hreal; assumption.
  - split; reflexivity.
Qed.

(** The theorem at work on the repository's resolver tests. *)
Lemma client_key_resolution_witness :
  GetClientID (mkRequest {[ "X-Real-IP"%string := ["192.168.1.1"%string] ]} "10.0.0.1:1234")
  = "192.168.1.1"%string
  ∧ GetClientID
      (mkRequest {[ "X-Forwarded-For"%string :=
                      ["203.0.113.1, 70.41.3.18, 150.172.238.178"%string] ]}
         "10.0.0.1:1234")
    = "203.0.113.1"%string
  ∧ GetClientID (mkRequest ∅ "192.168.1.100:1234") = "192.168.1.100"%string.
Proof.
  split; [|split].
  - refine (proj1 (client_key_resolution _) _). vm_compute. discriminate.
  - refine (proj1 (proj2 (client_key_resolution _)) _ _ _);
      vm_compute; (reflexivity || discriminate).
  - refine (proj2 (proj2 (proj1 (proj2 (proj2 (client_key_resolution _)))
                            _ _)) "192.168.1.100"%string "1234"%string _ _ _);
      vm_compute; (reflexivity || discriminate).
Defined.

(** C9 as stated fails on two socket addresses: the empty one resolves to
    ["unknown"], and one that begins with its only colon keeps its port. *)
Lemma socket_address_not_always_stripped :
  GetClientID (mkRequest ∅ ":8080") = ":8080"%string
  ∧ spec_strip_port ":8080" = EmptyString
  ∧ GetClientID (mkRequest ∅ ":8080") ≠ spec_resolve (mkRequest ∅ ":8080")
  ∧ GetClientID (mkRequest ∅ "") = "unknown"%string
  ∧ GetClientID (mkRequest ∅ "") ≠ spec_resolve (mkRequest ∅ "").
Proof. vm_compute. repeat split; (reflexivity || discriminate). Qed.

(** C10, as amended: for every request whose real-IP and forwarded-for
    headers are absent or empty and whose socket address is the empty
    string, the resolver returns the string ["unknown"]. *)
Theorem empty_socket_address_is_unknown (r : Request) :
  Header_Get (Header r) "X-Real-IP" = EmptyString →
  Header_Get (Header r) "X-Forwarded-For" = EmptyString →
  RemoteAddr r = EmptyString →
  GetClientID r = "unknown"%string.
Proof.
  intros Hreal Hfwd Haddr.
  rewrite (GetClientID_socket r Hreal Hfwd), Haddr. reflexivity.
Qed.

Lemma empty_socket_address_is_unknown_witness :
  GetClientID (mkRequest ∅ "") = "unknown"%string.
Proof.
  apply (empty_socket_address_is_unknown (mkRequest ∅ "")); reflexivity.
Defined.

(** C10 as stated fails: with no header and an empty socket address the
    resolver does not return the empty string. *)
Lemma empty_socket_address_not_empty_key :
  Header_Get (Header (mkRequest ∅ "")) "X-Real-IP" = EmptyString
  ∧ Header_Get (Header (mkRequest ∅ "")) "X-Forwarded-For" = EmptyString
  ∧ RemoteAddr (mkRequest ∅ "") = EmptyString
  ∧ GetClientID (mkRequest ∅ "") ≠ EmptyString.
Proof. vm_compute. repeat split; discriminate. Qed.

(** ** The two maps keep the same keys *)

Lemma Allow_cleanup_same_keys (now cleanupNow : Z) (rl : RateLimiter) :
  same_keys rl → same_keys (Allow_cleanup now cleanupNow rl).
Proof.
  intros Hk k. destruct (Allow_cleanup_spec now cleanupNow rl) as (_ & Ht & Hl & _).
  rewrite Ht, Hl. destruct (swept _ _ _ _); [|apply Hk].
  split; intros [? ?]; discriminate.
Qed.

Lemma Allow_init_same_keys (clientID : string) (now : Z) (rl rl2 : RateLimiter) :
  Allow_init clientID now rl = Some rl2 → same_keys rl → same_keys rl2.
Proof.
  unfold Allow_init. intros Hi Hk k.
  assert (Hset : ∀ n, is_Some (tokens (set_lastUpdate (set_tokens rl clientID n) clientID now) !! k)
                      ↔ is_Some (lastUpdate (set_lastUpdate (set_tokens rl clientID n) clientID now) !! k)).
  { intros n. cbn. destruct (decide (clientID = k)) as [->|Hne].
    - rewrite !lookup_insert_eq. split; eauto.
    - rewrite !lookup_insert_ne by done. apply Hk. }
  destruct (tokens rl !! clientID);
    [destruct (inactiveThreshold rl <? _) | destruct (requestsPerSecond rl =? 0)];
    inversion Hi; subst; auto.
Qed.

Lemma Allow_same_keys (clientID : string) (now cleanupNow : Z) (rl : RateLimiter) :
  same_keys rl → same_keys (Allow clientID now cleanupNow rl).2.
Proof.
  intros Hk. pose proof (Allow_cleanup_same_keys now cleanupNow rl Hk) as Hk1.
  pose proof (Allow_spec clientID now cleanupNow rl) as Hs. cbn zeta in Hs.
  destruct (Allow_init clientID now _) as [rl2|] eqn:Hi.
  - pose proof (Allow_init_same_keys _ _ _ _ Hi Hk1) as Hk2.
    destruct Hs as (_ & Ht & Hl & Hother & _). intros k.
    destruct (decide (k = clientID)) as [->|Hne].
    + rewrite Ht, Hl. split; eauto.
    + destruct (Hother k Hne) as [-> ->]. apply Hk2.
  - rewrite Hs. exact Hk1.
Qed.

Lemma Allow_calls_same_keys (calls : list (string * Z * Z)) (rl : RateLimiter) :
  same_keys rl → same_keys (Allow_calls calls rl).2.
Proof.
  revert rl. induction calls as [|call calls IH]; intros rl Hk; [exact Hk|].
  rewrite Allow_calls_cons. cbn [snd]. apply IH, Allow_same_keys, Hk.
Qed.

(** X1: whatever the run of [Allow] calls on a limiter built by
    [NewRateLimiter], the two maps have the same keys; hence [GetMapState]
    skips no client: its view has an entry for exactly the tracked
    clients, and [total_clients] is the number of entries of the view. *)
Theorem tracked_clients_all_in_view
    (requestsPerSecond burstSize windowSize cleanupInterval inactiveThreshold : Z)
    (calls : list (string * Z * Z)) (now : Z) :
  let rl := (Allow_calls calls
               (NewRateLimiter requestsPerSecond burstSize windowSize
                  cleanupInterval inactiveThreshold)).2 in
  same_keys rl
  ∧ (∀ k, is_Some (clients (GetMapState rl now) !! k) ↔ is_Some (tokens rl !! k))
  ∧ total_clients (GetMapState rl now)
    = Z.of_nat (size (clients (GetMapState rl now))).
Proof.
  intros rl.
  assert (Hk : same_keys rl).
  { apply Allow_calls_same_keys. intros k. cbn. rewrite !lookup_empty. done. }
  assert (Hview : ∀ k, is_Some (clients (GetMapState rl now) !! k)
                       ↔ is_Some (tokens rl !! k)).
  { intros k. unfold GetMapState. cbn [clients]. rewrite map_lookup_imap.
    specialize (Hk k). destruct (tokens rl !! k) as [n|]; cbn.
    - destruct (lastUpdate rl !! k); [split; eauto|].
      exfalso. destruct (proj1 Hk); eauto. discriminate.
    - split; intros [? ?]; discriminate. }
  split; [exact Hk|]. split; [exact Hview|].
  unfold GetMapState at 1. cbn [total_clients]. f_equal.
  rewrite <- !(size_dom (D := gset string)). f_equal.
  apply set_eq. intros k. rewrite !elem_of_dom. symmetry. apply Hview.
Qed.

(** ** What the sweep removes and what it keeps *)

(** X2: the eviction sweep reading [now] removes from both maps exactly the
    clients whose last update lies more than [inactiveThreshold] before
    [now]; every other entry, the configuration and [lastCleanup] are left
    as they were. *)
Theorem cleanup_removes_exactly_idle (rl : RateLimiter) (now : Z) :
  min_int < inactiveThreshold rl ≤ max_int →
  let idle k := match lastUpdate rl !! k with
                | Some t => inactiveThreshold rl <? now - t
                | None => false
                end in
  (∀ k, tokens (cleanup rl now) !! k = if idle k then None else tokens rl !! k)
  ∧ (∀ k, lastUpdate (cleanup rl now) !! k
          = if idle k then None else lastUpdate rl !! k)
  ∧ same_config (cleanup rl now) rl
  ∧ lastCleanup (cleanup rl now) = lastCleanup rl.
Proof.
  intros Hthr idle.
  assert (Hidle : ∀ k, stale rl now k = idle k).
  { intros k. unfold stale, idle, time.Before, time.Add.
    destruct (lastUpdate rl !! k) as [t|]; [|reflexivity].
    rewrite wrap_int_id by (unfold min_int, max_int in *; lia).
    destruct (Z.ltb_spec t (now + - inactiveThreshold rl)),
             (Z.ltb_spec (inactiveThreshold rl) (now - t)); (reflexivity || lia). }
  destruct (cleanup_spec rl now) as (tk & lu & -> & Htk & Hlu). cbn.
  split; [|split; [|split]]; try done.
  - intros k. rewrite Htk, Hidle. reflexivity.
  - intros k. rewrite Hlu, Hidle. reflexivity.
Qed.

Lemma cleanup_removes_exactly_idle_witness :
  let rl := set_lastUpdate
              (set_tokens (NewRateLimiter 10 5 (100 * time.Millisecond)
                             time.Minute time.Minute) "client2" 2)
              "client2" startup in
  tokens (cleanup rl (startup + 30 * time.Second)) !! "client2" = Some 2.
Proof.
  intros rl.
  refine (proj1 (cleanup_removes_exactly_idle rl (startup + 30 * time.Second) _)
            "client2"%string).
  vm_compute. split; [reflexivity | discriminate].
Defined.

Lemma stale_later (rl : RateLimiter) (t1 t2 : Z) (k : string) :
  t1 ≤ t2 → stale rl t1 k = true → stale rl t2 k = true.
Proof.
  unfold stale, time.Before, time.Add. intros Hle.
  destruct (lastUpdate rl !! k); [|done].
  rewrite !Z.ltb_lt. lia.
Qed.

Lemma set_maps_eq (rl : RateLimiter) (tk1 lu1 tk2 lu2 : gmap string Z) :
  (∀ k, tk1 !! k = tk2 !! k) → (∀ k, lu1 !! k = lu2 !! k) →
  set_maps rl tk1 lu1 = set_maps rl tk2 lu2.
Proof.
  intros Ht Hl. unfold set_maps. f_equal; apply map_eq; assumption.
Qed.

(** X3: a sweep absorbs every earlier sweep: sweeping at [t1] and then at a
    later instant [t2] leaves the store that a single sweep at [t2] leaves.
    In particular a second sweep at the same instant changes nothing. *)
Theorem cleanup_absorbs_earlier (rl : RateLimiter) (t1 t2 : Z) :
  t1 ≤ t2 → cleanup (cleanup rl t1) t2 = cleanup rl t2.
Proof.
  intros Hle.
  destruct (cleanup_spec (cleanup rl t1) t2) as (tk12 & lu12 & E12 & Htk12 & Hlu12).
  destruct (cleanup_spec rl t2) as (tk2 & lu2 & E2 & Htk2 & Hlu2).
  destruct (cleanup_spec rl t1) as (tk1 & lu1 & E1 & Htk1 & Hlu1).
  rewrite E12, E2. rewrite E1 in *. cbn in Htk12, Hlu12.
  assert (Hst : ∀ k, stale (set_maps rl tk1 lu1) t2 k
                     = if stale rl t1 k then false else stale rl t2 k).
  { intros k. unfold stale at 1. cbn. rewrite Hlu1.
    destruct (stale rl t1 k) eqn:H1; [reflexivity|]. reflexivity. }
  unfold set_maps at 1. cbn.
  apply set_maps_eq; intros k.
  - rewrite Htk12, Htk2, Hst, Htk1.
    destruct (stale rl t1 k) eqn:H1; [|reflexivity].
    rewrite (stale_later rl t1 t2 k Hle H1). reflexivity.
  - rewrite Hlu12, Hlu2, Hst, Hlu1.
    destruct (stale rl t1 k) eqn:H1; [|reflexivity].
    rewrite (stale_later rl t1 t2 k Hle H1). reflexivity.
Qed.

Lemma cleanup_absorbs_earlier_witness :
  let rl := set_lastUpdate
              (set_tokens (NewRateLimiter 10 5 (100 * time.Millisecond)
                             time.Minute time.Minute) "client1" 3)
              "client1" startup in
  cleanup (cleanup rl (startup + time.Minute)) (startup + 2 * time.Minute)
  = cleanup rl (startup + 2 * time.Minute).
Proof.
  intros rl. apply cleanup_absorbs_earlier. vm_compute. discriminate.
Defined.

(** ** What a call leaves untouched *)

(** X4: a call for [clientID] never writes another client's bucket: such a
    bucket is either evicted by the call's sweep (both entries) or left
    exactly as it was; and a call adds at most one tracked client. *)
Theorem Allow_touches_one_bucket
    (rl : RateLimiter) (clientID : string) (now cleanupNow : Z) :
  let res := Allow clientID now cleanupNow rl in
  (∀ k, k ≠ clientID →
     tokens res.2 !! k
     = (if swept rl now cleanupNow k then None else tokens rl !! k)
     ∧ lastUpdate res.2 !! k
       = (if swept rl now cleanupNow k then None else lastUpdate rl !! k))
  ∧ (size (tokens res.2) ≤ S (size (tokens rl)))%nat.
Proof.
  intros res.
  destruct (Allow_cleanup_spec now cleanupNow rl) as (_ & Ht & Hl & _).
  assert (Hother : ∀ k, k ≠ clientID →
            tokens res.2 !! k
            = (if swept rl now cleanupNow k then None else tokens rl !! k)
            ∧ lastUpdate res.2 !! k
              = (if swept rl now cleanupNow k then None else lastUpdate rl !! k)).
  { intros k Hne.
    destruct (Allow_frame clientID k now cleanupNow rl Hne) as ((_ & Hft & Hfl) & _).
    fold res in Hft, Hfl. rewrite Hft, Hfl, Ht, Hl. done. }
  split; [exact Hother|].
  transitivity (size (<[clientID := 0]> (tokens rl))).
  - rewrite <- !(size_dom (D := gset string)). apply subseteq_size.
    intros k. rewrite !elem_of_dom.
    destruct (decide (k = clientID)) as [->|Hne].
    + rewrite lookup_insert_eq. eauto.
    + rewrite lookup_insert_ne by done. destruct (Hother k Hne) as [-> _].
      destruct (swept _ _ _ _); [intros [? ?]; discriminate | done].
  - rewrite map_size_insert. destruct (tokens rl !! clientID); cbn; lia.
Qed.

Lemma sweep_survivor_recent (rl : RateLimiter) (k : string) (now cleanupNow t : Z) :
  min_int < inactiveThreshold rl ≤ max_int →
  cleanupInterval rl < time.Sub now (lastCleanup rl) →
  lastUpdate (Allow_cleanup now cleanupNow rl) !! k = Some t →
  cleanupNow - t ≤ inactiveThreshold rl.
Proof.
  intros Hthr Hrun Hk.
  destruct (Allow_cleanup_spec now cleanupNow rl) as (_ & _ & Hl & _).
  rewrite Hl in Hk. unfold swept in Hk.
  replace (cleanupInterval rl <? time.Sub now (lastCleanup rl)) with true in Hk
    by (symmetry; apply Z.ltb_lt; exact Hrun).
  cbn [andb] in Hk. unfold stale in Hk.
  destruct (lastUpdate rl !! k) as [u|] eqn:Hu; [|discriminate].
  destruct (time.Before u _) eqn:Hb; [discriminate|].
  inversion Hk; subst u. unfold time.Before, time.Add in Hb.
  rewrite wrap_int_id in Hb by (unfold min_int, max_int in *; lia).
  apply Z.ltb_ge in Hb. lia.
Qed.

(** X5: after a call whose sweep ran, no tracked client is idle beyond the
    threshold as of the sweep's clock reading: the store holds only the
    client just served, updated at the instant of the call, and clients
    updated within [inactiveThreshold] of the sweep. *)
Theorem sweep_leaves_only_recent
    (rl : RateLimiter) (clientID k : string) (now cleanupNow t : Z) :
  min_int < inactiveThreshold rl ≤ max_int →
  cleanupInterval rl < time.Sub now (lastCleanup rl) →
  lastUpdate (Allow clientID now cleanupNow rl).2 !! k = Some t →
  (k = clientID ∧ t = now) ∨ cleanupNow - t ≤ inactiveThreshold rl.
Proof.
  intros Hthr Hrun Hk.
  pose proof (Allow_spec clientID now cleanupNow rl) as Hs. cbn zeta in Hs.
  destruct (Allow_init clientID now _) as [rl2|] eqn:Hi.
  - destruct (decide (k = clientID)) as [->|Hne].
    + left. destruct Hs as (_ & _ & Hl & _). split; congruence.
    + right. destruct Hs as (_ & _ & _ & Hother & _).
      destruct (Allow_init_spec _ _ _ _ Hi) as (_ & _ & Hother2).
      destruct (Hother k Hne) as [_ H1]. destruct (Hother2 k Hne) as [_ H2].
      rewrite H1, H2 in Hk. eapply sweep_survivor_recent; eassumption.
  - right. rewrite Hs in Hk. cbn [snd] in Hk.
    eapply sweep_survivor_recent; eassumption.
Qed.

Lemma sweep_leaves_only_recent_witness :
  let rl := set_lastUpdate
              (set_tokens (NewRateLimiter 10 5 time.Second time.Minute time.Minute)
                 "client2" 2)
              "client2" startup in
  (("client2"%string = "client1"%string ∧ startup = startup + 30 * time.Second)
   ∨ startup + 30 * time.Second - startup ≤ inactiveThreshold rl).
Proof.
  intros rl.
  refine (sweep_leaves_only_recent rl "client1" "client2"
            (startup + 30 * time.Second) (startup + 30 * time.Second) startup _ _ _).
  - vm_compute. split; [reflexivity | discriminate].
  - vm_compute. reflexivity.
  - vm_compute. reflexivity.
Defined.

(** ** Refill *)

Lemma Sub_le_gap (now lu bound : Z) :
  0 ≤ bound → now - lu ≤ bound → time.Sub now lu ≤ bound.
Proof.
  unfold time.Sub, time.minDuration, time.maxDuration, min_int, max_int. lia.
Qed.

(** X6: token accounting: a bucket last updated at [lu] and contacted at
    [now] within the inactivity threshold is worth the count [c] that
    [calculateCurrentTokens] computes for it at [now], which lies within
    the burst: of the calls made at the instant [now], exactly the first
    [c] are admitted and the next is rejected. *)
Theorem refilled_bucket_admits_its_count
    (rl : RateLimiter) (clientID : string) (tk lu now : Z) :
  0 ≤ inactiveThreshold rl ≤ max_int →
  0 ≤ burstSize rl ≤ max_int →
  tokens rl !! clientID = Some tk →
  lastUpdate rl !! clientID = Some lu →
  now - lu ≤ inactiveThreshold rl →
  let c := calculateCurrentTokens rl clientID now in
  0 ≤ c ≤ burstSize rl
  ∧ (Allow_calls (repeat (clientID, now, now) (S (Z.to_nat c))) rl).1
    = repeat true (Z.to_nat c) ++ [false].
Proof.
  intros Hthr Hb Ht Hl Hgap c.
  assert (Hc : 0 ≤ c ≤ burstSize rl) by (apply calculateCurrentTokens_range; lia).
  split; [exact Hc|].
  destruct (Allow_live rl clientID tk lu now now Hthr Ht Hl Hgap)
    as (H1 & H2 & H3); [apply Sub_le_gap; lia|]. fold c in H1, H2.
  destruct (Allow_same_config clientID now now rl) as (_ & Hcb & _ & Hct).
  cbn [repeat]. rewrite Allow_calls_cons. cbn [fst snd]. rewrite H1.
  destruct (Z.ltb_spec 0 c) as [Hpos|Hzero].
  - replace (Z.to_nat c) with (S (Z.to_nat (c - 1))) by lia.
    cbn [repeat app]. f_equal.
    apply drain_at_instant; rewrite ?Hcb, ?Hct; try done; try lia.
    rewrite H2. f_equal. lia.
  - replace c with 0 by lia. reflexivity.
Qed.

(** The limiter of the debug routes, rate 100 and burst 200: an emptied
    bucket contacted 290 ms later is worth 28 tokens, the product
    [0.29 * 100] being [28.999999999999996] in binary64. *)
Lemma refilled_bucket_admits_its_count_witness :
  let rl := set_lastUpdate (set_tokens new_debugRateLimiter "client1" 0)
              "client1" startup in
  (Allow_calls (repeat ("client1"%string, startup + 290 * time.Millisecond,
                        startup + 290 * time.Millisecond) 29) rl).1
  = repeat true 28 ++ [false].
Proof.
  intros rl.
  refine (proj2 (refilled_bucket_admits_its_count rl "client1" 0 startup
                   (startup + 290 * time.Millisecond) _ _ _ _ _)).
  - vm_compute. split; discriminate.
  - vm_compute. split; discriminate.
  - reflexivity.
  - reflexivity.
  - vm_compute. discriminate.
Defined.

Lemma Allow_serve_outcome (clientID : string) (now : Z) (rl rl2 : RateLimiter) :
  Allow_init clientID now rl = Some rl2 →
  (Allow_serve clientID now rl).1 = (0 <? calculateCurrentTokens rl2 clientID now).
Proof.
  intros Hi. unfold Allow_serve. rewrite Hi. cbn zeta.
  unfold tokens_at, Allow_refill. cbn [tokens set_lastUpdate set_tokens].
  rewrite lookup_insert_eq. cbn [default from_option id].
  destruct (0 <? calculateCurrentTokens rl2 clientID now); reflexivity.
Qed.

(** A freshly written bucket (created or reset) is worth the full burst. *)
Lemma calculateCurrentTokens_full (rl : RateLimiter) (clientID : string) (now : Z) :
  0 ≤ burstSize rl ≤ max_int →
  calculateCurrentTokens
    (set_lastUpdate (set_tokens rl clientID (burstSize rl)) clientID now)
    clientID now
  = burstSize rl.
Proof.
  intros Hb.
  rewrite (calculateCurrentTokens_now _ _ _ (burstSize rl))
    by (cbn; rewrite ?lookup_insert_eq; congruence).
  rewrite wrap_int_id by (unfold min_int, max_int in *; lia).
  rewrite clamp_tokens_min by (cbn; lia). cbn. lia.
Qed.

(** X7: refill progress: with rate [R >= 1] and burst at least 1, a client
    that comes back [1/R] seconds or more after its last update is
    admitted, whether its bucket was refilled, reset or evicted in the
    meantime, provided the tokens plus the most the refill grants,
    [floor(elapsedSeconds * R * (1 + 2^-50))], fit a machine integer. *)
Theorem refill_progress
    (rl : RateLimiter) (clientID : string) (tk lu now cleanupNow : Z) :
  1 ≤ requestsPerSecond rl →
  1 ≤ burstSize rl ≤ max_int →
  tokens rl !! clientID = Some tk →
  lastUpdate rl !! clientID = Some lu →
  0 ≤ tk →
  time.Second ≤ (now - lu) * requestsPerSecond rl →
  tk + refill_bound (requestsPerSecond rl) (time.Sub now lu) ≤ max_int →
  (Allow clientID now cleanupNow rl).1 = true.
Proof.
  intros Hr Hb Ht Hl Htk Hwait Hfit.
  rewrite Allow_unfold.
  destruct (Allow_cleanup_spec now cleanupNow rl) as (Hcfg & Htk1 & Hlu1 & _).
  pose proof Hcfg as (Hcr & Hcb & _ & Hct).
  set (rl1 := Allow_cleanup now cleanupNow rl) in *.
  specialize (Htk1 clientID). specialize (Hlu1 clientID).
  assert (Hfull : ∀ r, same_config r rl →
            (0 <? calculateCurrentTokens
                    (set_lastUpdate (set_tokens r clientID (burstSize r)) clientID now)
                    clientID now) = true).
  { intros r (_ & Hrb & _). rewrite calculateCurrentTokens_full by lia.
    apply Z.ltb_lt. lia. }
  destruct (swept rl now cleanupNow clientID).
  - erewrite Allow_serve_outcome.
    2:{ unfold Allow_init. rewrite Htk1, Hcr.
        destruct (Z.eqb_spec (requestsPerSecond rl) 0); [lia | reflexivity]. }
    apply Hfull. exact Hcfg.
  - rewrite Ht in Htk1. rewrite Hl in Hlu1.
    destruct (Z.ltb_spec (inactiveThreshold rl1) (time.Sub now lu)) as [Hidle|Hlive].
    + erewrite Allow_serve_outcome.
      2:{ unfold Allow_init, lastUpdate_at. rewrite Htk1, Hlu1.
          cbn [default from_option id].
          replace (inactiveThreshold rl1 <? time.Sub now lu) with true
            by (symmetry; apply Z.ltb_lt; exact Hidle).
          reflexivity. }
      apply Hfull. exact Hcfg.
    + erewrite Allow_serve_outcome.
      2:{ unfold Allow_init, lastUpdate_at. rewrite Htk1, Hlu1.
          cbn [default from_option id].
          replace (inactiveThreshold rl1 <? time.Sub now lu) with false
            by (symmetry; apply Z.ltb_ge; exact Hlive).
          reflexivity. }
      unfold calculateCurrentTokens, tokens_at. rewrite Hlu1, Htk1.
      cbn [default from_option id].
      rewrite (tokensToAdd_config rl1 rl) by exact Hcfg.
      assert (He : 0 ≤ time.Sub now lu
                   ∧ time.Second ≤ time.Sub now lu * requestsPerSecond rl).
      { unfold time.Sub, time.minDuration, time.maxDuration, min_int, max_int,
          time.Second in *. nia. }
      pose proof (tokensToAdd_le rl (time.Sub now lu) ltac:(lia) ltac:(lia)) as Hle.
      assert (Hone : 1 ≤ tokensToAdd rl (time.Sub now lu)).
      { apply tokensToAdd_progress; lia. }
      rewrite wrap_int_id by (unfold min_int, max_int in *; lia).
      rewrite clamp_tokens_min by lia. apply Z.ltb_lt. lia.
Qed.

(** The repository's time-based test: rate 10, burst 2; 150 ms after the
    burst is spent the client is admitted again. *)
Lemma refill_progress_witness :
  let rl := (Allow_calls (repeat ("test-client"%string, startup, startup) 3)
               (NewRateLimiter 10 2 time.Second time.Minute (5 * time.Minute))).2 in
  (Allow "test-client" (startup + 150 * time.Millisecond)
     (startup + 150 * time.Millisecond) rl).1 = true.
Proof.
  intros rl.
  refine (refill_progress rl "test-client" 0 startup
            (startup + 150 * time.Millisecond) (startup + 150 * time.Millisecond)
            _ _ _ _ _ _ _).
  - vm_compute. discriminate.
  - vm_compute. split; discriminate.
  - reflexivity.
  - reflexivity.
  - vm_compute. discriminate.
  - vm_compute. discriminate.
  - vm_compute. discriminate.
Defined.

(** ** The grant against the exact product *)

(** The rounding at known binary64 values: the value nearest to one tenth;
    integers beyond 53 bits, halfway cases going to the even neighbour; the
    largest [int], which becomes [2^63]. *)
Example round64_tenth :
  round64 (1 # 10) = 3602879701896397 # 36028797018963968.
Proof. vm_compute. reflexivity. Qed.

Example float64_ties_to_even :
  float64 (2 ^ 53 + 1) = inject_Z (2 ^ 53)
  ∧ float64 (2 ^ 53 + 3) = inject_Z (2 ^ 53 + 4)
  ∧ float64 max_int = inject_Z (2 ^ 63).
Proof. vm_compute. repeat split; reflexivity. Qed.

Example Seconds_290ms :
  time.Seconds (290 * time.Millisecond) = 5224175567749775 # 18014398509481984.
Proof. vm_compute. reflexivity. Qed.

(** X17: the grant against the exact product.  For an elapsed time and a
    rate whose product stays below [2^50] tokens, the grant
    [int(elapsedSeconds * rate)], as binary64 computes it, is within one of
    [floor(elapsedSeconds * rate)]; it is 0 when the exact product is below
    one token, and at least 1 from one token on. *)
Theorem grant_within_one_of_exact (rl : RateLimiter) (e : Z) :
  0 ≤ e →
  0 ≤ requestsPerSecond rl →
  e * requestsPerSecond rl < slack * time.Second →
  let exact := (e * requestsPerSecond rl) / time.Second in
  exact - 1 ≤ tokensToAdd rl e ≤ exact + 1
  ∧ (exact = 0 → tokensToAdd rl e = 0)
  ∧ (1 ≤ exact → 1 ≤ tokensToAdd rl e).
Proof.
  intros He Hr Hp exact.
  assert (HS : 0 < time.Second) by (unfold time.Second; lia).
  assert (Hs : 0 < slack) by (unfold slack; lia).
  pose proof (Z.mul_div_le (e * requestsPerSecond rl) _ HS) as Hlo.
  pose proof (Z.mul_succ_div_gt (e * requestsPerSecond rl) _ HS) as Hhi.
  fold exact in Hlo, Hhi.
  assert (Hex : 0 ≤ exact) by (apply Z.div_pos; [nia | lia]).
  assert (Hub : refill_bound (requestsPerSecond rl) e ≤ exact + 1).
  { apply Z.lt_succ_r. unfold refill_bound.
    apply Z.div_lt_upper_bound; [nia|]. nia. }
  assert (Hfit : refill_bound (requestsPerSecond rl) e ≤ max_int).
  { assert (exact < slack).
    { apply Z.div_lt_upper_bound; [lia|]. lia. }
    unfold slack, max_int in *. lia. }
  assert (Hlb : exact - 1 ≤ refill_floor (requestsPerSecond rl) e).
  { unfold refill_floor. apply Z.div_le_lower_bound; [nia|]. nia. }
  pose proof (tokensToAdd_le rl e He Hr).
  pose proof (tokensToAdd_ge rl e He Hr Hfit).
  split; [lia|]. split.
  - intros Hzero. apply tokensToAdd_small; try assumption. lia.
  - intros Hone. apply tokensToAdd_progress; try assumption. nia.
Qed.

(** The limiter of the debug routes after 290 ms: the exact product is 29
    tokens. *)
Lemma grant_within_one_of_exact_witness :
  29 - 1 ≤ tokensToAdd new_debugRateLimiter (290 * time.Millisecond) ≤ 29 + 1.
Proof.
  refine (proj1 (grant_within_one_of_exact new_debugRateLimiter
                   (290 * time.Millisecond) _ _ _)).
  - vm_compute. discriminate.
  - vm_compute. discriminate.
  - vm_compute. reflexivity.
Defined.

(** X18: the grant does differ from [floor(elapsedSeconds * rate)], in both
    directions.  At rate 100, 290 ms are worth 29 tokens and the code
    grants 28, the product [0.29 * 100] being [28.999999999999996] in
    binary64; at rate 180485419, 33309821 ns are worth 6011936 tokens and
    the code grants 6011937, the product being rounded up to an integer.
    Beyond the range of [int] the conversion yields the smallest [int],
    which the clamp turns into an empty bucket. *)
Theorem grant_differs_from_exact :
  (290 * time.Millisecond * 100) / time.Second = 29
  ∧ tokensToAdd new_debugRateLimiter (290 * time.Millisecond) = 28
  ∧ (33309821 * 180485419) / time.Second = 6011936
  ∧ tokensToAdd (NewRateLimiter 180485419 6011937 time.Second time.Minute
                   (5 * time.Minute)) 33309821 = 6011937
  ∧ tokensToAdd (NewRateLimiter max_int 1 time.Second time.Minute
                   (5 * time.Minute)) time.Second = min_int
  ∧ (Allow "client1" (startup + time.Second) (startup + time.Second)
       (set_lastUpdate
          (set_tokens (NewRateLimiter max_int 1 time.Second time.Minute
                         (5 * time.Minute)) "client1" 0)
          "client1" startup)).1 = false.
Proof. vm_compute. repeat split; reflexivity. Qed.

(** ** The debugging view and the admission decision *)

(** X8: for a client the view reports as active, the token count of the view
    is the count [Allow] decides on at the same instant: the call is
    admitted exactly when the view shows a positive count, and leaves one
    token less. *)
Theorem view_predicts_admission
    (rl : RateLimiter) (clientID : string) (now : Z) (view : ClientState) :
  0 ≤ inactiveThreshold rl ≤ max_int →
  clients (GetMapState rl now) !! clientID = Some view →
  client_is_active view = true →
  let res := Allow clientID now now rl in
  res.1 = (0 <? client_tokens view)
  ∧ tokens res.2 !! clientID
    = Some (if 0 <? client_tokens view then client_tokens view - 1
            else client_tokens view).
Proof.
  intros Hthr Hview Hactive.
  unfold GetMapState in Hview. cbn [clients] in Hview.
  rewrite map_lookup_imap in Hview.
  destruct (tokens rl !! clientID) as [tk|] eqn:Ht; [|discriminate].
  destruct (lastUpdate rl !! clientID) as [lu|] eqn:Hl; [|discriminate].
  cbn in Hview. inversion Hview; subst view. clear Hview.
  cbn [client_tokens client_is_active] in *.
  apply Z.ltb_lt in Hactive.
  assert (Hgap : now - lu ≤ inactiveThreshold rl).
  { unfold time.Sub, time.minDuration, time.maxDuration, min_int, max_int in *. lia. }
  destruct (Allow_live rl clientID tk lu now now Hthr Ht Hl Hgap)
    as (H1 & H2 & _); [lia|].
  split; assumption.
Qed.

Lemma view_predicts_admission_witness :
  let rl := (Allow_calls (repeat ("client1"%string, startup, startup) 2)
               (NewRateLimiter 2 2 time.Second time.Minute (5 * time.Minute))).2 in
  (Allow "client1" (startup + 600 * time.Millisecond)
     (startup + 600 * time.Millisecond) rl).1
  = (0 <? 1).
Proof.
  intros rl.
  refine (proj1 (view_predicts_admission rl "client1"
                   (startup + 600 * time.Millisecond)
                   (mkClientState 1 startup 600 true) _ _ _)).
  - vm_compute. split; discriminate.
  - vm_compute. reflexivity.
  - reflexivity.
Defined.

(** ** The configuration after construction *)

Lemma Allow_calls_same_config (calls : list (string * Z * Z)) (rl : RateLimiter) :
  same_config (Allow_calls calls rl).2 rl.
Proof.
  revert rl. induction calls as [|call calls IH]; intros rl;
    [apply same_config_refl|].
  rewrite Allow_calls_cons. cbn [snd].
  eapply same_config_trans; [apply IH | apply Allow_same_config].
Qed.

(** X9: the configuration is fixed at construction: after any run of [Allow]
    calls the limiter has the rate and burst it was built with, and the
    two durations it was built with, a zero duration having been replaced
    by its default (one and five minutes); a limiter never runs with a
    zero cleanup interval or a zero inactivity threshold. *)
Theorem configuration_is_fixed
    (rate burst windowSize interval threshold : Z)
    (calls : list (string * Z * Z)) :
  let rl := (Allow_calls calls
               (NewRateLimiter rate burst windowSize interval threshold)).2 in
  requestsPerSecond rl = rate
  ∧ burstSize rl = burst
  ∧ cleanupInterval rl = (if interval =? 0 then time.Minute else interval)
  ∧ inactiveThreshold rl = (if threshold =? 0 then 5 * time.Minute else threshold)
  ∧ cleanupInterval rl ≠ 0
  ∧ inactiveThreshold rl ≠ 0.
Proof.
  intros rl.
  destruct (Allow_calls_same_config calls
              (NewRateLimiter rate burst windowSize interval threshold))
    as (Hr & Hb & Hi & Ht).
  fold rl in Hr, Hb, Hi, Ht. rewrite Hr, Hb, Hi, Ht. cbn.
  repeat (split; [reflexivity|]).
  destruct (Z.eqb_spec interval 0), (Z.eqb_spec threshold 0);
    split; (assumption || discriminate).
Qed.

(** ** The admission budget *)

Lemma refill_bound_add (r x y : Z) :
  refill_bound r x + refill_bound r y ≤ refill_bound r (x + y).
Proof.
  unfold refill_bound.
  assert (Hd : 0 < time.Second * slack) by (unfold time.Second, slack; lia).
  apply Z.div_le_lower_bound; [exact Hd|].
  pose proof (Z.mul_div_le (x * r * (slack + 1)) _ Hd).
  pose proof (Z.mul_div_le (y * r * (slack + 1)) _ Hd).
  lia.
Qed.

Lemma refill_bound_mono (r x y : Z) :
  0 ≤ r → x ≤ y → refill_bound r x ≤ refill_bound r y.
Proof.
  intros Hr Hxy. unfold refill_bound.
  apply Z.div_le_mono; unfold time.Second, slack; [lia | nia].
Qed.

Lemma refill_bound_nonneg (r x : Z) : 0 ≤ r → 0 ≤ x → 0 ≤ refill_bound r x.
Proof.
  intros Hr Hx. unfold refill_bound.
  apply Z.div_pos; unfold time.Second, slack; [nia | lia].
Qed.

Section budget.
Variables (rl0 : RateLimiter) (k : string) (t0 : Z).
Hypothesis Hrate : 0 ≤ requestsPerSecond rl0.
Hypothesis Hburst : 0 ≤ burstSize rl0 ≤ max_int.
Hypothesis Hthr : 0 ≤ inactiveThreshold rl0 ≤ max_int.
Hypothesis Hslow :
  burstSize rl0 * time.Second ≤ inactiveThreshold rl0 * requestsPerSecond rl0.

(** Coming back after more than the threshold is worth at least a full
    burst of refill. *)
Lemma idle_refill_covers_burst (g now : Z) :
  g + inactiveThreshold rl0 < now →
  burstSize rl0 ≤ refill_bound (requestsPerSecond rl0) (now - g).
Proof.
  intros Hidle. unfold refill_bound.
  apply Z.div_le_lower_bound; unfold time.Second, slack in *; [lia | nia].
Qed.

Lemma within_budget_sweep (rl : RateLimiter) (t now a : Z) :
  same_config rl rl0 → t ≤ now →
  within_budget rl k t0 t a →
  within_budget (Allow_cleanup now now rl) k t0 now a.
Proof.
  intros (Hr & Hb & _ & Ht) Hle (H0 & Hbud).
  destruct (Allow_cleanup_spec now now rl) as ((Hr1 & Hb1 & _ & Ht1) & Htk & Hlu & _).
  split; [lia|]. rewrite Htk, Hb1, Hr1, Ht1.
  destruct (tokens rl !! k) as [tk|] eqn:Etk.
  - destruct Hbud as (lu & Hl & Htk0 & Hlu0 & Hsum).
    destruct (swept rl now now k) eqn:Hsw.
    + right. exists lu. split; [lia|]. split; [|lia].
      unfold swept, stale in Hsw. rewrite Hl in Hsw.
      apply andb_true_iff in Hsw as [_ Hst].
      unfold time.Before, time.Add in Hst. rewrite Ht in *.
      rewrite wrap_int_id in Hst by (unfold min_int, max_int in *; lia).
      apply Z.ltb_lt in Hst. lia.
    + exists lu. rewrite Hlu, Hsw. repeat split; (assumption || lia).
  - destruct (swept rl now now k); (destruct Hbud as [->|(g & ? & ? & ?)];
      [left; reflexivity | right; exists g; repeat split; lia]).
Qed.

Lemma within_budget_serve (rl : RateLimiter) (now a : Z) :
  same_config rl rl0 →
  within_budget rl k t0 now a →
  let res := Allow_serve k now rl in
  within_budget res.2 k t0 now (a + if res.1 then 1 else 0).
Proof.
  intros Hcfg (H0 & Hbud) res. pose proof Hcfg as (Hr & Hb & _ & Ht).
  assert (Hfresh : ∀ rl2,
            Allow_init k now rl = Some rl2 →
            same_config rl2 rl →
            calculateCurrentTokens rl2 k now ≤ burstSize rl0 →
            0 ≤ calculateCurrentTokens rl2 k now →
            a + calculateCurrentTokens rl2 k now
            ≤ burstSize rl0 + refill_bound (requestsPerSecond rl0) (now - t0) →
            within_budget res.2 k t0 now (a + if res.1 then 1 else 0)).
  { intros rl2 Hi (Hr2 & Hb2 & _ & Ht2) Hle Hge Hsum.
    subst res. unfold Allow_serve. rewrite Hi. cbn zeta.
    unfold tokens_at, Allow_refill. cbn [tokens set_lastUpdate set_tokens].
    rewrite lookup_insert_eq. cbn [default from_option id].
    set (c := calculateCurrentTokens rl2 k now) in *.
    split; [exact H0|].
    destruct (Z.ltb_spec 0 c); cbn; rewrite !lookup_insert_eq;
      exists now; rewrite Hb2, Hr2, Hb, Hr; repeat split; lia. }
  unfold Allow_init, lastUpdate_at in Hfresh.
  destruct (tokens rl !! k) as [tk|] eqn:Etk.
  - destruct Hbud as (lu & Hl & Htk0 & Hlu0 & Hsum). rewrite Hl in Hfresh.
    cbn [default from_option id] in Hfresh.
    pose proof (refill_bound_add (requestsPerSecond rl0) (lu - t0) (now - lu)) as Hadd.
    replace (lu - t0 + (now - lu)) with (now - t0) in Hadd by lia.
    rewrite Hb, Hr in Hsum.
    destruct (Z.ltb_spec (inactiveThreshold rl) (time.Sub now lu)) as [Hidle|Hlive].
    + eapply Hfresh; [reflexivity | done | | |];
        rewrite calculateCurrentTokens_full by (rewrite Hb; exact Hburst);
        rewrite ?Hb; try lia.
      assert (Hlate : lu + inactiveThreshold rl0 < now).
      { unfold time.Sub, time.minDuration, time.maxDuration, min_int, max_int in *.
        lia. }
      pose proof (idle_refill_covers_burst lu now Hlate). lia.
    + set (e := time.Sub now lu) in *.
      assert (He : 0 ≤ e ≤ now - lu).
      { subst e. unfold time.Sub, time.minDuration, time.maxDuration,
          min_int, max_int in *. lia. }
      assert (Hcalc : calculateCurrentTokens rl k now
                      = clamp_tokens rl (wrap_int (tk + tokensToAdd rl e))).
      { unfold calculateCurrentTokens, tokens_at. rewrite Hl, Etk. reflexivity. }
      pose proof (clamp_tokens_range rl (wrap_int (tk + tokensToAdd rl e))
                    ltac:(lia)) as Hrange.
      pose proof (tokensToAdd_range rl e) as Hg.
      assert (Hgrant : tokensToAdd rl e ≤ refill_bound (requestsPerSecond rl0) (now - lu)).
      { etransitivity; [apply tokensToAdd_le; lia|]. rewrite Hr.
        apply refill_bound_mono; lia. }
      pose proof (refill_bound_nonneg (requestsPerSecond rl0) (now - lu)
                    Hrate ltac:(lia)) as Hb0.
      assert (Hup : clamp_tokens rl (wrap_int (tk + tokensToAdd rl e))
                    ≤ Z.max 0 (tk + tokensToAdd rl e)).
      { destruct (Z.le_gt_cases (tk + tokensToAdd rl e) max_int).
        - rewrite wrap_int_id by (unfold min_int, max_int in *; lia).
          unfold clamp_tokens. Z_cases; lia.
        - lia. }
      eapply Hfresh; [reflexivity | done | | |]; rewrite Hcalc; lia.
  - destruct (Z.eqb_spec (requestsPerSecond rl) 0) as [Hzero|Hnz].
    + subst res. unfold Allow_serve, Allow_init. rewrite Etk.
      replace (requestsPerSecond rl =? 0) with true by (symmetry; apply Z.eqb_eq; exact Hzero).
      cbn. rewrite Z.add_0_r. split; [exact H0|]. rewrite Etk. exact Hbud.
    + eapply Hfresh; [reflexivity | done | | |];
        rewrite calculateCurrentTokens_full by (rewrite Hb; exact Hburst);
        rewrite ?Hb; try lia.
      destruct Hbud as [->|(g & Hg0 & Hg1 & Hg2)].
      * pose proof (refill_bound_nonneg (requestsPerSecond rl0) (now - t0)
                      Hrate ltac:(lia)). lia.
      * rewrite Ht in Hg1.
        pose proof (idle_refill_covers_burst g now Hg1).
        pose proof (refill_bound_add (requestsPerSecond rl0) (g - t0) (now - g)) as Hadd.
        replace (g - t0 + (now - g)) with (now - t0) in Hadd by lia.
        rewrite Hb, Hr in Hg2. lia.
Qed.

Lemma within_budget_other (rl : RateLimiter) (clientID : string) (now a : Z) :
  clientID ≠ k →
  within_budget rl k t0 now a →
  within_budget (Allow_serve clientID now rl).2 k t0 now a.
Proof.
  intros Hne (H0 & Hbud). split; [exact H0|].
  assert (Hag : agree_on k (Allow_serve clientID now rl).2 rl).
  { unfold Allow_serve.
    destruct (Allow_init clientID now rl) as [rl2|] eqn:Hi;
      [|split; [apply same_config_refl | done]].
    destruct (Allow_init_spec _ _ _ _ Hi) as (Hc & _ & Hother).
    destruct (Hother k (not_eq_sym Hne)) as [Ht Hl].
    cbn zeta. unfold Allow_refill.
    destruct (0 <? _); (split; [exact Hc|]); cbn;
      rewrite !lookup_insert_ne by done; done. }
  destruct Hag as ((-> & -> & _ & ->) & -> & ->). exact Hbud.
Qed.

Lemma within_budget_run (calls : list (string * Z)) :
  ∀ (rl : RateLimiter) (t T a : Z),
    same_config rl rl0 →
    within_budget rl k t0 t a →
    chronological t T calls →
    a + admissions k (at_instants calls) rl
    ≤ burstSize rl0 + refill_bound (requestsPerSecond rl0) (T - t0).
Proof.
  induction calls as [|[clientID now] calls IH]; intros rl t T a Hcfg Hbud Hchr.
  - cbn in *. rewrite Z.add_0_r. destruct Hcfg as (Hr & Hb & _ & Ht).
    destruct Hbud as (H0 & Hbud). rewrite Hr, Hb, Ht in Hbud.
    destruct (tokens rl !! k) as [tk|].
    + destruct Hbud as (lu & _ & ? & ? & ?).
      pose proof (refill_bound_mono (requestsPerSecond rl0) (lu - t0) (T - t0)
                    Hrate ltac:(lia)). lia.
    + destruct Hbud as [->|(g & ? & ? & ?)].
      * pose proof (refill_bound_nonneg (requestsPerSecond rl0) (T - t0)
                      Hrate ltac:(lia)). lia.
      * pose proof (refill_bound_mono (requestsPerSecond rl0) (g - t0) (T - t0)
                      Hrate ltac:(lia)). lia.
  - destruct Hchr as [Hle Hchr]. cbn [at_instants map admissions fst snd].
    fold (at_instants calls). rewrite Allow_unfold.
    pose proof (within_budget_sweep rl t now a Hcfg Hle Hbud) as Hsw.
    destruct (Allow_cleanup_spec now now rl) as (Hc1 & _).
    set (rl1 := Allow_cleanup now now rl) in *.
    assert (Hcfg1 : same_config rl1 rl0) by eauto using same_config_trans.
    assert (Hcfg2 : same_config (Allow_serve clientID now rl1).2 rl0).
    { eapply same_config_trans; [|exact Hcfg].
      change (Allow_serve clientID now rl1) with (Allow clientID now now rl).
      apply Allow_same_config. }
    destruct (decide (clientID = k)) as [->|Hne].
    + rewrite bool_decide_eq_true_2 by reflexivity. cbn [andb].
      pose proof (within_budget_serve rl1 now a Hcfg1 Hsw) as Hserve.
      cbn zeta in Hserve.
      specialize (IH _ now T _ Hcfg2 Hserve Hchr). lia.
    + rewrite bool_decide_eq_false_2 by exact Hne. cbn [andb].
      pose proof (within_budget_other rl1 clientID now a Hne Hsw) as Hother.
      specialize (IH _ now T _ Hcfg2 Hother Hchr). lia.
Qed.

End budget.

(** X10: the rate limit itself.  When the burst is no more than what the rate
    refills during [inactiveThreshold], a client that starts without a
    bucket is admitted, over any run of calls by any clients between the
    instants [t0] and [T], at most
    [burstSize + floor(rate * (T - t0) * (1 + 2^-50))] times ([T - t0] in
    seconds): resets and evictions never grant more than the refill would
    have, and the factor [1 + 2^-50] covers the rounding of each grant to
    binary64. *)
Theorem admissions_within_budget
    (rl : RateLimiter) (k : string) (t0 T : Z) (calls : list (string * Z)) :
  0 ≤ requestsPerSecond rl →
  0 ≤ burstSize rl ≤ max_int →
  0 ≤ inactiveThreshold rl ≤ max_int →
  burstSize rl * time.Second ≤ inactiveThreshold rl * requestsPerSecond rl →
  tokens rl !! k = None →
  chronological t0 T calls →
  admissions k (at_instants calls) rl
  ≤ burstSize rl + refill_bound (requestsPerSecond rl) (T - t0).
Proof.
  intros Hr Hb Hthr Hslow Hk Hchr.
  pose proof (within_budget_run rl k t0 Hr Hb Hthr Hslow calls rl t0 T 0
                (same_config_refl rl)) as Hrun.
  rewrite Z.add_0_l in Hrun. apply Hrun; [|exact Hchr].
  split; [lia|]. rewrite Hk. left. reflexivity.
Qed.

(** The repository's stress test in small: rate 2, burst 3; eight calls
    spread over one second, with another client in between. *)
Lemma admissions_within_budget_witness :
  let rl := NewRateLimiter 2 3 time.Second time.Minute (5 * time.Minute) in
  let calls := [("stress-client"%string, startup); ("stress-client"%string, startup);
                ("other"%string, startup + 100 * time.Millisecond);
                ("stress-client"%string, startup + 200 * time.Millisecond);
                ("stress-client"%string, startup + 400 * time.Millisecond);
                ("stress-client"%string, startup + 600 * time.Millisecond);
                ("stress-client"%string, startup + 800 * time.Millisecond);
                ("stress-client"%string, startup + 1000 * time.Millisecond)] in
  admissions "stress-client" (at_instants calls) rl
  ≤ 3 + refill_bound 2 (startup + time.Second - startup).
Proof.
  intros rl calls.
  refine (admissions_within_budget rl "stress-client" startup
            (startup + time.Second) calls _ _ _ _ _ _).
  - vm_compute. discriminate.
  - vm_compute. split; discriminate.
  - vm_compute. split; discriminate.
  - vm_compute. discriminate.
  - reflexivity.
  - vm_compute. repeat split; discriminate.
Defined.

(** ** The logged client address and the rate-limit key *)

Lemma first_comma_shift (s : string) (i : nat) :
  first_comma s (S i) = S <$> first_comma s i.
Proof.
  revert i. induction s as [|c s IH]; intros i; cbn; [reflexivity|].
  destruct (Ascii.eqb c ","); [reflexivity | apply IH].
Qed.

Lemma first_comma_index (s : string) :
  first_comma s 0 = strings.index_nat s ",".
Proof.
  induction s as [|c s IH]; [reflexivity|].
  cbn [first_comma strings.index_nat String.prefix].
  destruct (Ascii.eqb_spec c ",") as [->|Hne].
  - destruct (ascii_dec "," ","); [|done]. destruct s; reflexivity.
  - destruct (ascii_dec "," c) as [<-|_]; [done|].
    rewrite first_comma_shift, IH. reflexivity.
Qed.

(** X11: the two resolvers of the repository agree on a request with a
    non-empty real-IP header; on a request forwarded with a header that
    does not begin with a comma, the rate-limit key is the logged address
    with its white space trimmed; when the header begins with a comma the
    logged address is empty, while the rate-limit key is the whole trimmed
    header.  This holds whatever [net.SplitHostPort] computes. *)
Theorem rate_limit_key_is_trimmed_logged_address
    (SplitHostPort : string → option (string * string)) (r : Request) :
  let realIP := Header_Get (Header r) "X-Real-IP" in
  let forwardedFor := Header_Get (Header r) "X-Forwarded-For" in
  (realIP ≠ EmptyString →
   getClientIP SplitHostPort r = realIP ∧ GetClientID r = realIP)
  ∧ (realIP = EmptyString → forwardedFor ≠ EmptyString →
     (strings.Index forwardedFor "," ≠ 0 →
      GetClientID r = strings.TrimSpace (getClientIP SplitHostPort r))
     ∧ (strings.Index forwardedFor "," = 0 →
        getClientIP SplitHostPort r = EmptyString
        ∧ GetClientID r = strings.TrimSpace forwardedFor)).
Proof.
  intros realIP forwardedFor. split.
  - intros Hne. unfold getClientIP, GetClientID. fold realIP.
    rewrite (eqb_empty_false _ Hne). done.
  - intros He Hfne. unfold getClientIP, GetClientID. fold realIP. rewrite He.
    cbn [String.eqb negb]. fold forwardedFor.
    rewrite (eqb_empty_false _ Hfne). cbn [negb].
    rewrite first_comma_index. unfold strings.Index.
    destruct (strings.index_nat forwardedFor ",") as [[|i]|].
    + split; [intros Hz; done|]. intros _.
      split; [destruct forwardedFor; reflexivity | reflexivity].
    + split; [|intros Hz; lia]. intros _.
      replace (0 <? Z.of_nat (S i)) with true by (symmetry; apply Z.ltb_lt; lia).
      rewrite slice_to_of_nat. reflexivity.
    + split; [intros _; reflexivity | intros Hz; lia].
Qed.

Lemma rate_limit_key_is_trimmed_logged_address_witness :
  let r := mkRequest {[ "X-Forwarded-For"%string := ["203.0.113.1 , 70.41.3.18"%string] ]}
             "192.168.1.1:12345" in
  GetClientID r = strings.TrimSpace (getClientIP (λ _, None) r).
Proof.
  intros r.
  refine (proj1 (proj2 (rate_limit_key_is_trimmed_logged_address (λ _, None) r) _ _) _);
    vm_compute; (reflexivity || discriminate).
Defined.

(** ** The middlewares *)

Lemma GetClientID_direct (host path port : string) :
  host ≠ EmptyString →
  strings.index_nat port ":" = None →
  GetClientID (request (direct_request host path port)) = host.
Proof.
  intros Hhost Hport. cbn [direct_request request].
  pose proof (last_index_host_port host port Hport) as Hlast.
  rewrite GetClientID_strip_port; cbn [Header RemoteAddr]; try reflexivity.
  - unfold spec_strip_port. rewrite Hlast. apply substring_prefix.
  - destruct host; [done | discriminate].
  - unfold strings.LastIndex. rewrite Hlast. destruct host; [done | cbn; lia].
Qed.

Lemma serve_cons (h : Handler) (r : HttpRequest) (reqs : list HttpRequest)
    (st : Limiters) :
  serve h (r :: reqs) st
  = ((h new_writer r st).1 :: (serve h reqs (h new_writer r st).2).1,
     (serve h reqs (h new_writer r st).2).2).
Proof.
  cbn. destruct (h new_writer r st) as [w st1]. cbn.
  destruct (serve h reqs st1). reflexivity.
Qed.

(** One request through [RateLimitMiddleware] over a downstream handler
    that leaves the limiters alone. *)
Lemma RateLimitMiddleware_pure (f : ResponseWriter → HttpRequest → ResponseWriter)
    (now cleanupNow : Z) (r : HttpRequest) (st : Limiters) :
  let clientID := GetClientID (request r) in
  let res := Allow clientID now cleanupNow (rateLimiter st) in
  RateLimitMiddleware (pure_handler f) now cleanupNow new_writer r st
  = (if res.1
     then f (Header_Set new_writer "X-RateLimit-Limit"
               (Sprintf_d (requestsPerSecond res.2)))
            (WithClientID r clientID)
     else rate_limit_rejection (requestsPerSecond res.2),
     mkLimiters res.2 (debugRateLimiter st)).
Proof.
  cbn zeta. unfold RateLimitMiddleware.
  destruct (Allow (GetClientID (request r)) now cleanupNow (rateLimiter st))
    as [[|] rl]; reflexivity.
Qed.

(** With [n] tokens in the bucket of [host] and the clock standing still,
    the next [n] requests from [host], whatever their ports, reach the
    downstream handler and the one after is rejected. *)
Lemma serve_drain (f : ResponseWriter → HttpRequest → ResponseWriter)
    (host path : string) (t : Z) (rate : Z) (ports : list string) :
  ∀ st : Limiters,
    host ≠ EmptyString →
    Forall (λ port, strings.index_nat port ":" = None) ports →
    0 ≤ inactiveThreshold (rateLimiter st) ≤ max_int →
    burstSize (rateLimiter st) ≤ max_int →
    requestsPerSecond (rateLimiter st) = rate →
    tokens (rateLimiter st) !! host = Some (Z.of_nat (length ports) - 1) →
    Z.of_nat (length ports) - 1 ≤ burstSize (rateLimiter st) →
    lastUpdate (rateLimiter st) !! host = Some t →
    ports ≠ [] →
    (serve (RateLimitMiddleware (pure_handler f) t t)
       (map (direct_request host path) ports) st).1
    = map (λ port,
             f (Header_Set new_writer "X-RateLimit-Limit" (Sprintf_d rate))
               (WithClientID (direct_request host path port) host))
        (removelast ports)
      ++ [rate_limit_rejection rate].
Proof.
  induction ports as [|port ports IH]; intros st Hhost Hports Hthr Hb Hr Ht Hle Hl Hne;
    [done|].
  apply Forall_cons in Hports as [Hport Hports].
  cbn [map]. rewrite serve_cons, RateLimitMiddleware_pure. cbn zeta. cbn [fst snd].
  rewrite (GetClientID_direct host path port Hhost Hport).
  cbn [length] in Ht, Hle.
  assert (Hn : 0 ≤ Z.of_nat (S (length ports)) - 1 ≤ burstSize (rateLimiter st))
    by (split; [lia | exact Hle]).
  destruct (Allow_same_instant (rateLimiter st) host t _ Hthr Hn Hb Ht Hl)
    as (H1 & H2 & H3).
  destruct (Allow_same_config host t t (rateLimiter st)) as (Hcr & Hcb & _ & Hct).
  rewrite H1, Hcr, Hr.
  destruct ports as [|port' ports].
  - cbn. reflexivity.
  - replace (0 <? Z.of_nat (S (length (port' :: ports))) - 1) with true in *
      by (symmetry; apply Z.ltb_lt; cbn [length]; lia).
    change (removelast (port :: port' :: ports))
      with (port :: removelast (port' :: ports)).
    cbn [map app]. f_equal.
    apply IH; cbn [rateLimiter]; rewrite ?Hct, ?Hcb, ?Hcr, ?H2;
      cbn [length] in *; try done; try lia; f_equal; lia.
Qed.

(** X12: requests that come straight from one host share one budget whatever
    their source ports: with a non-zero rate and burst [B], of [B + 1]
    requests arriving at one instant from a host the limiter has not seen,
    the first [B] reach the downstream handler, with the limit header set
    and the host in the context, and the last is answered with status 429,
    the limit and a remaining count of 0. *)
Theorem same_host_shares_one_budget
    (f : ResponseWriter → HttpRequest → ResponseWriter)
    (st : Limiters) (host path : string) (ports : list string) (t : Z) :
  let rl := rateLimiter st in
  requestsPerSecond rl ≠ 0 →
  0 ≤ burstSize rl ≤ max_int →
  0 ≤ inactiveThreshold rl ≤ max_int →
  tokens rl !! host = None →
  host ≠ EmptyString →
  Forall (λ port, strings.index_nat port ":" = None) ports →
  length ports = S (Z.to_nat (burstSize rl)) →
  (serve (RateLimitMiddleware (pure_handler f) t t)
     (map (direct_request host path) ports) st).1
  = map (λ port,
           f (Header_Set new_writer "X-RateLimit-Limit"
                (Sprintf_d (requestsPerSecond rl)))
             (WithClientID (direct_request host path port) host))
      (removelast ports)
    ++ [rate_limit_rejection (requestsPerSecond rl)].
Proof.
  intros rl Hr Hb Hthr Ht Hhost Hports Hlen.
  destruct ports as [|port ports]; [discriminate|].
  apply Forall_cons in Hports as [Hport Hports].
  cbn [map]. rewrite serve_cons, RateLimitMiddleware_pure. cbn zeta. cbn [fst snd].
  rewrite (GetClientID_direct host path port Hhost Hport).
  destruct (Allow_unseen rl host t t Hr Hb Ht) as (H1 & H2 & H3).
  destruct (Allow_same_config host t t rl) as (Hcr & Hcb & _ & Hct).
  fold rl. rewrite H1, Hcr.
  cbn [length] in Hlen.
  destruct ports as [|port' ports].
  - cbn [length] in Hlen.
    replace (0 <? burstSize rl) with false by (symmetry; apply Z.ltb_ge; lia).
    reflexivity.
  - replace (0 <? burstSize rl) with true in *
      by (symmetry; apply Z.ltb_lt; cbn [length] in Hlen; lia).
    change (removelast (port :: port' :: ports))
      with (port :: removelast (port' :: ports)).
    cbn [map app]. f_equal.
    apply (serve_drain f host path t (requestsPerSecond rl) (port' :: ports));
      cbn [rateLimiter]; rewrite ?Hct, ?Hcb, ?H2;
      cbn [length] in *; try done; try lia; f_equal; lia.
Qed.

(** The repository's different-ports test: rate 1, burst 2, three
    requests from 192.168.1.1. *)
Lemma same_host_shares_one_budget_witness :
  let st := mkLimiters (NewRateLimiter 1 2 time.Second time.Minute (5 * time.Minute))
              new_debugRateLimiter in
  (serve (RateLimitMiddleware (pure_handler (λ w _, Write w "OK")) startup startup)
     (map (direct_request "192.168.1.1" "/test")
        ["1234"%string; "1235"%string; "1236"%string]) st).1
  = map (λ port,
           Write (Header_Set new_writer "X-RateLimit-Limit" (Sprintf_d 1)) "OK")
      ["1234"%string; "1235"%string]
    ++ [rate_limit_rejection 1].
Proof.
  intros st.
  refine (same_host_shares_one_budget (λ w _, Write w "OK") st "192.168.1.1" "/test"
            ["1234"%string; "1235"%string; "1236"%string] startup _ _ _ _ _ _ _).
  - vm_compute. discriminate.
  - vm_compute. split; discriminate.
  - vm_compute. split; discriminate.
  - reflexivity.
  - discriminate.
  - repeat constructor.
  - reflexivity.
Defined.

(** X13: in the chain of [SetupRoutesWithMiddleware] the regular limiter is
    charged for every request, those for debug routes included, and the
    debug limiter only for the debug requests the regular limiter has
    admitted.  A client rejected by the regular limiter gets the regular
    rejection on a debug route too, and its debug bucket is not touched;
    an admitted debug request reaches the rest of the chain with the limit
    header of the debug limiter. *)
Theorem debug_routes_spend_regular_tokens
    (f : ResponseWriter → HttpRequest → ResponseWriter)
    (now cleanupNow debugNow debugCleanupNow : Z)
    (r : HttpRequest) (st : Limiters) :
  let clientID := GetClientID (request r) in
  let regular := Allow clientID now cleanupNow (rateLimiter st) in
  let debug := Allow clientID debugNow debugCleanupNow (debugRateLimiter st) in
  let on_debug_route := String.prefix "/debug/" (URL_Path r) in
  let limit := requestsPerSecond regular.2 in
  let limit_writer :=
    Header_Set new_writer "X-RateLimit-Limit" (Sprintf_d limit) in
  let res := limited (pure_handler f) now cleanupNow debugNow debugCleanupNow
               new_writer r st in
  rateLimiter res.2 = regular.2
  ∧ debugRateLimiter res.2
    = (if regular.1 && on_debug_route then debug.2 else debugRateLimiter st)
  ∧ res.1
    = (if negb regular.1 then rate_limit_rejection limit
       else if negb on_debug_route then f limit_writer (WithClientID r clientID)
       else if negb debug.1 then debug_limit_rejection limit
       else f (Header_Set limit_writer "X-RateLimit-Limit" "100")
              (WithClientID r clientID)).
Proof.
  cbn zeta. unfold limited, RateLimitMiddleware, DebugRateLimitMiddleware, pure_handler.
  destruct (Allow (GetClientID (request r)) now cleanupNow (rateLimiter st))
    as [[|] rl] eqn:Hreg; cbn [fst snd negb andb]; [|done].
  cbn [URL_Path WithClientID request debugRateLimiter rateLimiter].
  destruct (String.prefix "/debug/" (URL_Path r)) eqn:Hpath; cbn [negb]; [|done].
  destruct (Allow (GetClientID (request r)) debugNow debugCleanupNow
              (debugRateLimiter st)) as [[|] drl] eqn:Hdbg; done.
Qed.

(** ** Rejections and degenerate configurations *)

Lemma clamp_tokens_nonneg (rl : RateLimiter) (x : Z) : 0 ≤ clamp_tokens rl x.
Proof.
  unfold clamp_tokens.
  destruct (Z.ltb_spec (burstSize rl) x); Z_cases; lia.
Qed.

Lemma calculateCurrentTokens_nonneg (rl : RateLimiter) (clientID : string) (now : Z) :
  0 ≤ calculateCurrentTokens rl clientID now.
Proof.
  unfold calculateCurrentTokens.
  destruct (lastUpdate rl !! clientID); cbn; [apply clamp_tokens_nonneg | lia].
Qed.

(** X14: whatever the configuration, a rejected call leaves its client with no
    token: the bucket holds 0, or there is no bucket at all, which only
    happens for an unseen client under rate 0.  An admitted call leaves a
    bucket with a count that is not negative.  So the remaining count of 0
    that the middleware reports on a rejection is the stored one. *)
Theorem rejection_means_empty_bucket
    (rl : RateLimiter) (clientID : string) (now cleanupNow : Z) :
  let res := Allow clientID now cleanupNow rl in
  (res.1 = false →
   tokens res.2 !! clientID = Some 0
   ∨ (tokens res.2 !! clientID = None ∧ requestsPerSecond rl = 0))
  ∧ (res.1 = true → ∃ n, tokens res.2 !! clientID = Some n ∧ 0 ≤ n).
Proof.
  intros res. subst res.
  pose proof (Allow_spec clientID now cleanupNow rl) as Hs. cbn zeta in Hs.
  destruct (Allow_cleanup_spec now cleanupNow rl) as ((Hcr & _) & _).
  destruct (Allow_init clientID now _) as [rl2|] eqn:Hi.
  - destruct Hs as (H1 & H2 & _).
    pose proof (calculateCurrentTokens_nonneg rl2 clientID now) as Hc.
    rewrite H1, H2. destruct (Z.ltb_spec 0 (calculateCurrentTokens rl2 clientID now)).
    + split; [discriminate|]. intros _. eexists; split; [reflexivity | lia].
    + split; [|discriminate]. intros _. left. f_equal. lia.
  - rewrite Hs. cbn [fst snd]. split; [|discriminate]. intros _. right.
    unfold Allow_init in Hi.
    destruct (tokens (Allow_cleanup now cleanupNow rl) !! clientID);
      [destruct (_ <? _) in Hi; discriminate|].
    split; [reflexivity|].
    destruct (Z.eqb_spec (requestsPerSecond (Allow_cleanup now cleanupNow rl)) 0);
      [congruence | discriminate].
Qed.

Lemma rejection_means_empty_bucket_witness :
  let rl := (Allow_calls (repeat ("client1"%string, startup, startup) 2)
               (NewRateLimiter 1 2 time.Second time.Minute (5 * time.Minute))).2 in
  tokens (Allow "client1" startup startup rl).2 !! "client1" = Some 0
  ∨ (tokens (Allow "client1" startup startup rl).2 !! "client1" = None
     ∧ requestsPerSecond rl = 0).
Proof.
  intros rl.
  refine (proj1 (rejection_means_empty_bucket rl "client1" startup startup) _).
  vm_compute. reflexivity.
Defined.

Lemma calculateCurrentTokens_no_burst (rl : RateLimiter) (clientID : string) (now : Z) :
  burstSize rl ≤ 0 → calculateCurrentTokens rl clientID now = 0.
Proof.
  intros Hb. unfold calculateCurrentTokens.
  destruct (lastUpdate rl !! clientID) as [lu|]; [|reflexivity].
  unfold clamp_tokens.
  destruct (Z.ltb_spec (burstSize rl) (wrap_int (tokens_at rl clientID +
              tokensToAdd rl (time.Sub now lu)))); Z_cases; lia.
Qed.

(** X15: a burst size of zero or less admits nothing: every call of every run
    is rejected, whatever the rate, the clients and the clock. *)
Theorem no_burst_admits_nothing (rl : RateLimiter) (calls : list (string * Z * Z)) :
  burstSize rl ≤ 0 →
  Forall (λ ok, ok = false) (Allow_calls calls rl).1.
Proof.
  revert rl. induction calls as [|[[clientID now] cleanupNow] calls IH]; intros rl Hb;
    [constructor|].
  rewrite Allow_calls_cons. cbn [fst snd].
  destruct (Allow_same_config clientID now cleanupNow rl) as (_ & Hcb & _).
  constructor; [|apply IH; lia].
  pose proof (Allow_spec clientID now cleanupNow rl) as Hs. cbn zeta in Hs.
  destruct (Allow_cleanup_spec now cleanupNow rl) as ((_ & Hcb1 & _) & _).
  destruct (Allow_init clientID now _) as [rl2|] eqn:Hi.
  - destruct Hs as (H1 & _).
    destruct (Allow_init_spec _ _ _ _ Hi) as ((_ & Hcb2 & _) & _).
    rewrite H1, calculateCurrentTokens_no_burst by lia. reflexivity.
  - rewrite Hs. reflexivity.
Qed.

Lemma no_burst_admits_nothing_witness :
  Forall (λ ok, ok = false)
    (Allow_calls [("a"%string, startup, startup);
                  ("a"%string, startup + 10 * time.Minute, startup + 10 * time.Minute)]
       (NewRateLimiter 5 (-3) time.Second time.Minute (5 * time.Minute))).1.
Proof.
  apply no_burst_admits_nothing. vm_compute. discriminate.
Defined.

(** ** How often the sweep runs *)

Lemma Allow_lastCleanup (clientID : string) (now cleanupNow : Z) (rl : RateLimiter) :
  lastCleanup (Allow clientID now cleanupNow rl).2
  = (if cleanupInterval rl <? time.Sub now (lastCleanup rl) then now
     else lastCleanup rl).
Proof.
  pose proof (Allow_spec clientID now cleanupNow rl) as Hs. cbn zeta in Hs.
  destruct (Allow_cleanup_spec now cleanupNow rl) as (_ & _ & _ & Hlc).
  destruct (Allow_init clientID now _) as [rl2|] eqn:Hi.
  - destruct Hs as (_ & _ & _ & _ & _ & Hlc2).
    destruct (Allow_init_spec _ _ _ _ Hi) as (_ & Hlc1 & _). congruence.
  - rewrite Hs. exact Hlc.
Qed.

(** X16: sweeps are at least [cleanupInterval] apart: once a call has swept at
    the instant [now], a call reading its clock no more than
    [cleanupInterval] later does not sweep, so it evicts no client. *)
Theorem no_sweep_within_interval
    (rl : RateLimiter) (clientID : string) (now cleanupNow later laterCleanup : Z) :
  0 ≤ cleanupInterval rl →
  cleanupInterval rl < time.Sub now (lastCleanup rl) →
  later - now ≤ cleanupInterval rl →
  Allow_cleanup later laterCleanup (Allow clientID now cleanupNow rl).2
  = (Allow clientID now cleanupNow rl).2.
Proof.
  intros Hi Hrun Hsoon. unfold Allow_cleanup.
  destruct (Allow_same_config clientID now cleanupNow rl) as (_ & _ & Hci & _).
  rewrite Allow_lastCleanup, Hci.
  replace (cleanupInterval rl <? time.Sub now (lastCleanup rl)) with true
    by (symmetry; apply Z.ltb_lt; exact Hrun).
  replace (cleanupInterval rl <? time.Sub later now) with false; [reflexivity|].
  symmetry. apply Z.ltb_ge. apply Sub_le_gap; assumption.
Qed.

Lemma no_sweep_within_interval_witness :
  let rl := NewRateLimiter 1 2 time.Second time.Minute (5 * time.Minute) in
  Allow_cleanup (startup + 30 * time.Second) (startup + 30 * time.Second)
    (Allow "client1" startup startup rl).2
  = (Allow "client1" startup startup rl).2.
Proof.
  intros rl.
  refine (no_sweep_within_interval rl "client1" startup startup
            (startup + 30 * time.Second) (startup + 30 * time.Second) _ _ _);
    vm_compute; (reflexivity || discriminate).
Defined.

Lemma Allow_touches_one_bucket_witness :
  let rl := (Allow "client2" startup startup
               (NewRateLimiter 1 2 time.Second time.Minute (5 * time.Minute))).2 in
  tokens (Allow "client1" startup startup rl).2 !! "client2"
  = (if swept rl startup startup "client2" then None else tokens rl !! "client2").
Proof.
  intros rl.
  refine (proj1 (proj1 (Allow_touches_one_bucket rl "client1" startup startup)
                   "client2"%string _)).
  discriminate.
Defined.
